(** * ipta_gwa_tutorial_part2: the notebook's local logic

    The notebook drives [enterprise] and [PTMCMCSampler]; what it defines
    itself is glue: two waveform functions ([chrom_exp_decay],
    [chrom_yearly_sinusoid]), the par/tim path filter, the loops that load
    pulsars and noise dictionaries, the two model-assembly loops and the
    chain post-processing.  Each of these is embedded below, cell by cell,
    and the properties of the specification are proved about the embedding.

    Conventions.
    - numpy's [float64] scalars are an abstract type [F] with the operations
      of the class [NpFloat]; nothing is assumed about them, so a statement
      proved for every [NpFloat] holds for IEEE-754 doubles as well as for
      the real numbers.  Statements that need laws of arithmetic are proved
      for the instance [R_float]: ideal real arithmetic, without rounding,
      overflow or NaN.  What float64 does where that differs is computed in
      the instance [F64_float], on the kernel's binary64 numbers.
    - a one-dimensional [ndarray] is a [list F]; a binary operation on two
      arrays follows numpy's broadcasting and raises on a shape mismatch
      ([None]).
    - a Python [dict] with string keys is a [gmap string _].
    - calls into the external libraries ([Pulsar], [json.load],
      [np.percentile], [model_utils.ul], ...) are parameters. *)

From Stdlib Require Import Floats Reals Lra QArith Ascii.
From stdpp Require Import gmap strings list sorting.

(** ** numpy scalars and arrays *)

(** The scalar operations the notebook applies to [float64] values. *)
Class NpFloat (F : Type) := {
  f_lit : Z → F;               (* an integer literal, promoted to float *)
  f_pi : F;                    (* np.pi *)
  f_neg : F → F;               (* -x *)
  f_add : F → F → F;           (* x + y *)
  f_sub : F → F → F;           (* x - y *)
  f_mul : F → F → F;           (* x * y *)
  f_div : F → F → F;           (* x / y, true division *)
  f_pow : F → F → F;           (* x ** y *)
  f_exp : F → F;               (* np.exp *)
  f_sin : F → F;               (* np.sin *)
  f_heaviside : F → F → F      (* np.heaviside(x, h0) *)
}.

(** What numpy's floating-point error handling looks at in a value. *)
Class NpClassify (F : Type) := {
  f_is_nan : F → bool;         (* np.isnan *)
  f_is_inf : F → bool          (* np.isinf *)
}.

Section numpy.
Context {F : Type} `{NpFloat F}.

(** [op(a, b)] for two one-dimensional arrays: equal shapes are combined
    position by position, a length-one array is stretched, anything else
    is numpy's [ValueError: operands could not be broadcast together]. *)
Definition np_binop (op : F → F → F) (a b : list F) : option (list F) :=
  if decide (length a = length b) then Some (zip_with op a b)
  else match a, b with
       | [x], _ => Some (map (op x) b)
       | _, [y] => Some (map (λ x, op x y) a)
       | _, _ => None
       end.

(** array (op) scalar and scalar (op) array *)
Definition np_arr_sc (op : F → F → F) (a : list F) (y : F) : list F :=
  map (λ x, op x y) a.
Definition np_sc_arr (op : F → F → F) (x : F) (b : list F) : list F :=
  map (op x) b.

(** Modelled from the spec: [enterprise.constants] is not part of the
    notebook; the specification fixes [const.day] to 86400 seconds (the
    notebook itself converts seconds to MJD by dividing by [86400.0]). *)
Definition const_day : F := f_lit 86400.

(** *** Cell 45: [chrom_exp_decay] *)

(** <<
    t0 *= const.day
    tau = 10**log10_tau * const.day
    wf = -10**log10_Amp * np.heaviside(toas - t0, 1) * \
        np.exp(- (toas - t0) / tau)
    return wf * (1400 / freqs) ** idx
    >> *)
Definition chrom_exp_decay (toas freqs : list F)
    (log10_Amp t0 log10_tau idx : F) : option (list F) :=
  let t0 := f_mul t0 const_day in
  let tau := f_mul (f_pow (f_lit 10) log10_tau) const_day in
  let step := map (λ x, f_heaviside x (f_lit 1)) (np_arr_sc f_sub toas t0) in
  let dip := np_sc_arr f_mul (f_neg (f_pow (f_lit 10) log10_Amp)) step in
  let decay :=
    map f_exp (np_arr_sc f_div (map f_neg (np_arr_sc f_sub toas t0)) tau) in
  wf ← np_binop f_mul dip decay;
  np_binop f_mul wf
    (np_arr_sc f_pow (np_sc_arr f_div (f_lit 1400) freqs) idx).

(** The closed form of the specification, for one TOA [t] and one radio
    frequency [f]:
    [-10^log10_Amp * H(t - t0*day) * exp(-(t - t0*day) / (10^log10_tau * day))
     * (1400/f)^idx]. *)
Definition exp_decay_closed_form (log10_Amp t0 log10_tau idx t f : F) : F :=
  f_mul
    (f_mul
       (f_mul (f_neg (f_pow (f_lit 10) log10_Amp))
              (f_heaviside (f_sub t (f_mul t0 const_day)) (f_lit 1)))
       (f_exp (f_div (f_neg (f_sub t (f_mul t0 const_day)))
                     (f_mul (f_pow (f_lit 10) log10_tau) const_day))))
    (f_pow (f_div (f_lit 1400) f) idx).

(** *** Cell 46: [chrom_yearly_sinusoid] *)

(** [const.fyr], the annual frequency of [enterprise.constants], is a
    parameter of the embedding. *)
Variable const_fyr : F.

(** <<
    wf = 10**log10_Amp * np.sin( 2 * np.pi * const.fyr * toas + phase)
    return wf * (1400 / freqs) ** idx
    >> *)
Definition chrom_yearly_sinusoid (toas freqs : list F)
    (log10_Amp phase idx : F) : option (list F) :=
  let omega := f_mul (f_mul (f_lit 2) f_pi) const_fyr in
  let arg := np_arr_sc f_add (np_sc_arr f_mul omega toas) phase in
  let wf := np_sc_arr f_mul (f_pow (f_lit 10) log10_Amp) (map f_sin arg) in
  np_binop f_mul wf
    (np_arr_sc f_pow (np_sc_arr f_div (f_lit 1400) freqs) idx).

(** The closed form of the specification:
    [10^log10_Amp * sin(2*pi*fyr*t + phase) * (1400/f)^idx]. *)
Definition yearly_sinusoid_closed_form (log10_Amp phase idx t f : F) : F :=
  f_mul
    (f_mul (f_pow (f_lit 10) log10_Amp)
           (f_sin (f_add (f_mul (f_mul (f_mul (f_lit 2) f_pi) const_fyr) t)
                         phase)))
    (f_pow (f_div (f_lit 1400) f) idx).
End numpy.

(** ** Ideal real arithmetic as an instance of [NpFloat] *)

(** [np.heaviside(x, h0)]: 0 below zero, [h0] at zero, 1 above. *)
Definition R_heaviside (x h0 : R) : R :=
  if Rlt_dec x 0 then 0%R else if Rlt_dec 0 x then 1%R else h0.

#[export] Instance R_float : NpFloat R := {|
  f_lit := IZR;
  f_pi := PI;
  f_neg := Ropp;
  f_add := Rplus;
  f_sub := Rminus;
  f_mul := Rmult;
  f_div := Rdiv;
  f_pow := Rpower;
  f_exp := exp;
  f_sin := sin;
  f_heaviside := R_heaviside
|}.

(** A real number is neither a NaN nor an infinity. *)
#[export] Instance R_classify : NpClassify R := {|
  f_is_nan := λ _, false;
  f_is_inf := λ _, false
|}.

(** ** IEEE 754 binary64 as an instance of [NpFloat]

    The numbers numpy computes with.  Literals and [+], [-], [*], [/] are
    the kernel's binary64 operations, which IEEE 754 fixes to the bit.
    [**], [np.exp] and [np.sin] end in the C library, which is not part
    of the notebook: they are a parameter of the instance. *)
Record libm : Type := {
  libm_pow : float → float → float;
  libm_exp : float → float;
  libm_sin : float → float
}.

(** An integer literal as a float: exact below 2^53, which covers the
    literals of the notebook. *)
Fixpoint f64_of_pos (p : positive) : float :=
  match p with
  | xH => 1%float
  | xO p => PrimFloat.mul 2%float (f64_of_pos p)
  | xI p => PrimFloat.add (PrimFloat.mul 2%float (f64_of_pos p)) 1%float
  end.

Definition f64_of_Z (z : Z) : float :=
  match z with
  | Z0 => 0%float
  | Zpos p => f64_of_pos p
  | Zneg p => PrimFloat.opp (f64_of_pos p)
  end.

(** [np.heaviside(x, h0)]: NaN for a NaN, 0 below zero, [h0] at either
    zero, 1 above. *)
Definition f64_heaviside (x h0 : float) : float :=
  if PrimFloat.is_nan x then nan
  else if PrimFloat.ltb x 0%float then 0%float
  else if PrimFloat.ltb 0%float x then 1%float
  else h0.

Definition F64_float (m : libm) : NpFloat float := {|
  f_lit := f64_of_Z;
  f_pi := 0x1.921fb54442d18p+1%float;
  f_neg := PrimFloat.opp;
  f_add := PrimFloat.add;
  f_sub := PrimFloat.sub;
  f_mul := PrimFloat.mul;
  f_div := PrimFloat.div;
  f_pow := libm_pow m;
  f_exp := libm_exp m;
  f_sin := libm_sin m;
  f_heaviside := f64_heaviside
|}.

#[export] Instance F64_classify : NpClassify float := {|
  f_is_nan := PrimFloat.is_nan;
  f_is_inf := PrimFloat.is_infinity
|}.

(** ** The waveform functions as Python calls

    What a call can reach besides its arguments: the arrays that exist
    (Python passes and binds arrays by reference), the attributes [day]
    and [fyr] of the module [enterprise.constants], which the bodies read
    each time they run, and numpy's handling of floating-point errors.  A
    numpy operation allocates its result as a new array; an augmented
    assignment ([v *= c]) rebinds the name when [v] is a float, which is
    immutable, and writes into the array when [v] is an [ndarray].  An
    exception leaves the world as it is when it is raised. *)

(** Arrays are addressed by their position in the heap. *)
Abbreviation ref := nat (only parsing).
Abbreviation heap F := (list (list F)) (only parsing).

(** A value passed for [t0]: a Python float, or an [ndarray], by
    reference. *)
Inductive pyval (F : Type) : Type :=
  | PyFloat (x : F)
  | PyArray (r : nat).
Arguments PyFloat {F} x.
Arguments PyArray {F} r.

(** What numpy does when an array operation overflows, divides by zero or
    is invalid ([np.seterr], ['warn'] unless it was changed).  Underflow,
    which numpy ignores unless told otherwise, is left out. *)
Inductive err_action : Set := ErrIgnore | ErrWarn | ErrRaise.

Record world (F : Type) : Type := {
  arrays : list (list F);
  day_attr : F;               (* enterprise.constants.day *)
  fyr_attr : F;               (* enterprise.constants.fyr *)
  np_errstate : err_action;   (* np.geterr() *)
  warned : list string        (* the RuntimeWarnings issued so far, by ufunc *)
}.
Arguments arrays {F} _.
Arguments day_attr {F} _.
Arguments fyr_attr {F} _.
Arguments np_errstate {F} _.
Arguments warned {F} _.

Definition with_arrays {F} (w : world F) (h : heap F) : world F :=
  {| arrays := h; day_attr := day_attr w; fyr_attr := fyr_attr w;
     np_errstate := np_errstate w; warned := warned w |}.

Definition with_warned {F} (w : world F) (l : list string) : world F :=
  {| arrays := arrays w; day_attr := day_attr w; fyr_attr := fyr_attr w;
     np_errstate := np_errstate w; warned := l |}.

Section python_calls.
Context {F : Type} `{NpFloat F} `{NpClassify F}.

(** A step returns a value or raises ([None]), and leaves a world. *)
Definition Py (A : Type) := world F → option A * world F.

Definition py_ret {A} (a : A) : Py A := λ w, (Some a, w).
Definition py_bind {A B} (m : Py A) (k : A → Py B) : Py B :=
  λ w, match m w with
       | (Some a, w') => k a w'
       | (None, w') => (None, w')
       end.
Definition py_try {A} (o : option A) : Py A := λ w, (o, w).
Definition py_load (r : ref) : Py (list F) := λ w, (arrays w !! r, w).
Definition py_new (a : list F) : Py ref :=
  λ w, (Some (length (arrays w)), with_arrays w (arrays w ++ [a])).
(** Writing into an existing array. *)
Definition py_store (r : ref) (a : list F) : Py unit :=
  λ w, if decide (r < length (arrays w))
       then (Some (), with_arrays w (<[r := a]> (arrays w)))
       else (None, w).
(** [const.day] and [const.fyr]: attribute look-ups at the time of the call. *)
Definition py_const_day : Py F := λ w, (Some (day_attr w), w).
Definition py_const_fyr : Py F := λ w, (Some (fyr_attr w), w).

Notation "'do' x <- m ; k" := (py_bind m (λ x, k))
  (at level 10, x name, m at level 100, k at level 200).

(** The floating-point error of one element: a NaN that no operand
    brought in (invalid), or an infinity out of finite operands (overflow,
    division by zero). *)
Definition fp_flag (xs : list F) (y : F) : bool :=
  (f_is_nan y && forallb (λ x, negb (f_is_nan x)) xs)
  || (f_is_inf y && forallb (λ x, negb (f_is_nan x) && negb (f_is_inf x)) xs).

(** After the loop of a ufunc: nothing, a [RuntimeWarning], or a
    [FloatingPointError]. *)
Definition py_fp_check (ufunc : string) (flagged : bool) : Py unit :=
  λ w, if flagged
       then match np_errstate w with
            | ErrIgnore => (Some (), w)
            | ErrWarn => (Some (), with_warned w (warned w ++ [ufunc]))
            | ErrRaise => (None, w)
            end
       else (Some (), w).

(** The pairs of elements an array (op) array works on, once the shapes
    are known to broadcast. *)
Definition np_pairs (a b : list F) : list (F * F) :=
  if decide (length a = length b) then zip a b
  else match a, b with
       | [x], _ => map (pair x) b
       | _, [y] => map (λ x, (x, y)) a
       | _, _ => []
       end.

(** ufunc(array), array (op) scalar, scalar (op) array, array (op) array *)
Definition py_map (ufunc : string) (g : F → F) (r : ref) : Py ref :=
  do a <- py_load r;
  do u <- py_fp_check ufunc (existsb (λ x, fp_flag [x] (g x)) a);
  py_new (map g a).
Definition py_arr_sc (ufunc : string) (op : F → F → F) (r : ref) (y : F)
    : Py ref :=
  do a <- py_load r;
  do u <- py_fp_check ufunc (existsb (λ x, fp_flag [x; y] (op x y)) a);
  py_new (np_arr_sc op a y).
Definition py_sc_arr (ufunc : string) (op : F → F → F) (x : F) (r : ref)
    : Py ref :=
  do b <- py_load r;
  do u <- py_fp_check ufunc (existsb (λ y, fp_flag [x; y] (op x y)) b);
  py_new (np_sc_arr op x b).
Definition py_binop (ufunc : string) (op : F → F → F) (r1 r2 : ref)
    : Py ref :=
  do a <- py_load r1; do b <- py_load r2;
  do c <- py_try (np_binop op a b);
  do u <- py_fp_check ufunc
            (existsb (λ p, fp_flag [p.1; p.2] (op p.1 p.2)) (np_pairs a b));
  py_new c.

(** array (op) [v], for [v] a float or an array *)
Definition py_arr_val (ufunc : string) (op : F → F → F) (r : ref)
    (v : pyval F) : Py ref :=
  match v with
  | PyFloat y => py_arr_sc ufunc op r y
  | PyArray r2 => py_binop ufunc op r r2
  end.

(** [v *= c]: a new float, or [np.multiply(v, c, out=v)], which has
    written into [v] by the time the error state is looked at. *)
Definition py_imul (v : pyval F) (c : F) : Py (pyval F) :=
  match v with
  | PyFloat x => py_ret (PyFloat (f_mul x c))
  | PyArray r =>
      do a <- py_load r;
      do u <- py_store r (np_arr_sc f_mul a c);
      do u' <- py_fp_check "multiply"
                 (existsb (λ x, fp_flag [x; c] (f_mul x c)) a);
      py_ret (PyArray r)
  end.

(** The body of [chrom_exp_decay], one step per line, in Python's order of
    evaluation. *)
Definition chrom_exp_decay_call (toas freqs : ref)
    (log10_Amp : F) (t0 : pyval F) (log10_tau idx : F) : Py ref :=
  do day <- py_const_day;
  do t0 <- py_imul t0 day;
  do day' <- py_const_day;
  let tau := f_mul (f_pow (f_lit 10) log10_tau) day' in
  do d1 <- py_arr_val "subtract" f_sub toas t0;
  do step <- py_map "heaviside" (λ x, f_heaviside x (f_lit 1)) d1;
  do dip <- py_sc_arr "multiply" f_mul (f_neg (f_pow (f_lit 10) log10_Amp))
              step;
  do d2 <- py_arr_val "subtract" f_sub toas t0;
  do n2 <- py_map "negative" f_neg d2;
  do q2 <- py_arr_sc "divide" f_div n2 tau;
  do decay <- py_map "exp" f_exp q2;
  do wf <- py_binop "multiply" f_mul dip decay;
  do ratio <- py_sc_arr "divide" f_div (f_lit 1400) freqs;
  do chrom <- py_arr_sc "power" f_pow ratio idx;
  py_binop "multiply" f_mul wf chrom.

(** The body of [chrom_yearly_sinusoid]. *)
Definition chrom_yearly_sinusoid_call (toas freqs : ref)
    (log10_Amp phase idx : F) : Py ref :=
  do fyr <- py_const_fyr;
  let omega := f_mul (f_mul (f_lit 2) f_pi) fyr in
  do a1 <- py_sc_arr "multiply" f_mul omega toas;
  do a2 <- py_arr_sc "add" f_add a1 phase;
  do a3 <- py_map "sin" f_sin a2;
  do wf <- py_sc_arr "multiply" f_mul (f_pow (f_lit 10) log10_Amp) a3;
  do ratio <- py_sc_arr "divide" f_div (f_lit 1400) freqs;
  do chrom <- py_arr_sc "power" f_pow ratio idx;
  py_binop "multiply" f_mul wf chrom.

(** World [w'] extends [w]: every array of [w] is still there, unchanged,
    so are the constants and numpy's error setting, and warnings have only
    been added. *)
Definition extends (w w' : world F) : Prop :=
  arrays w `prefix_of` arrays w'
  ∧ day_attr w' = day_attr w ∧ fyr_attr w' = fyr_attr w
  ∧ np_errstate w' = np_errstate w
  ∧ warned w `prefix_of` warned w'.

(** A step that does no more than allocate and warn. *)
Definition grows {A} (m : Py A) : Prop := ∀ w, extends w (m w).2.

(** A call started in [w] is pure with outcome [res] when it leaves a
    world that extends [w], raises exactly if [res] is [None], and
    otherwise returns an array holding [res]. *)
Definition pure_call (call : Py ref) (w : world F) (res : option (list F))
    : Prop :=
  ∃ o w', call w = (o, w') ∧ extends w w'
          ∧ match res with
            | Some wf => ∃ r, o = Some r ∧ arrays w' !! r = Some wf
            | None => o = None
            end.

(** The array a call returns, if it returns. *)
Definition call_result (call : Py ref) (w : world F) : option (list F) :=
  match call w with
  | (Some r, w') => arrays w' !! r
  | (None, _) => None
  end.
End python_calls.

(** ** Cells 6 to 10: the pulsar dictionary and the par/tim path filter *)

(** [s.split(sep)] for a one-character separator: the pieces between the
    occurrences of [sep]; never an empty list. *)
Fixpoint py_split (sep : ascii) (s : string) : list string :=
  match s with
  | EmptyString => [EmptyString]
  | String c s' =>
      if decide (c = sep) then EmptyString :: py_split sep s'
      else match py_split sep s' with
           | w :: ws => String c w :: ws
           | [] => [String c EmptyString]
           end
  end.

(** [sep.join(pieces)] *)
Fixpoint py_join (sep : ascii) (l : list string) : string :=
  match l with
  | [] => EmptyString
  | [w] => w
  | w :: ws => w +:+ String sep (py_join sep ws)
  end.

(** [x.split('/')[-1].split('.')[0]] *)
Definition psr_of_path (x : string) : string :=
  default "" (head (py_split "." (default "" (last (py_split "/" x))))).

(** The characters of a string. *)
Fixpoint occurs (c : ascii) (s : string) : Prop :=
  match s with
  | EmptyString => False
  | String c' s' => c' = c ∨ occurs c s'
  end.

(** What the specification calls the prefix, before the first ['.'], of the
    basename of the path [x]: [x] is a directory part (empty or ending in
    ['/']) followed by a basename free of ['/'], which is [n] followed by
    nothing or by a ['.'] and the rest, with no ['.'] in [n]. *)
Definition basename_prefix (x n : string) : Prop :=
  ∃ d r, x = d +:+ n +:+ r
         ∧ (d = "" ∨ ∃ d', d = d' +:+ "/")
         ∧ ¬ occurs "/" (n +:+ r)
         ∧ ¬ occurs "." n
         ∧ (r = "" ∨ ∃ r', r = String "." r').

Definition pta_entry (ptas : list string) : list (gmap string (list string)) :=
  [ {[ "pta" := ptas ]} ].

(** Cell 6 *)
Definition psrdict : gmap string (list (gmap string (list string))) :=
  list_to_map
    [ ("J1713+0747", pta_entry ["NANOGrav"; "PPTA"]);
      ("J1909-3744", pta_entry ["NANOGrav"; "PPTA"]);
      ("J1640+2224", pta_entry ["NANOGrav"]);
      ("J1600-3053", pta_entry ["NANOGrav"]);
      ("J2317+1439", pta_entry ["NANOGrav"]);
      ("J1918-0642", pta_entry ["NANOGrav"]);
      ("J1614-2230", pta_entry ["NANOGrav"]);
      ("J1744-1134", pta_entry ["NANOGrav"; "PPTA"]);
      ("J0030+0451", pta_entry ["NANOGrav"]);
      ("J2145-0750", pta_entry ["NANOGrav"]);
      ("J1857+0943", pta_entry ["NANOGrav"]);
      ("J1853+1303", pta_entry ["NANOGrav"]);
      ("J0613-0200", pta_entry ["NANOGrav"]);
      ("J1455-3330", pta_entry ["NANOGrav"]);
      ("J1741+1351", pta_entry ["NANOGrav"]);
      ("J2010-1323", pta_entry ["NANOGrav"]);
      ("J1024-0719", pta_entry ["NANOGrav"]);
      ("J1012+5307", pta_entry ["NANOGrav"]);
      ("J0437-4715", pta_entry ["PPTA"]) ].

(** [psrlist = psrdict.keys()]: the keys, in the dictionary's own order. *)
Definition psrlist : list string := (map_to_list psrdict).*1.

(** [sorted(...)] on strings: the list in ascending lexicographic order of
    character codes.  That order is total and antisymmetric, so the result
    does not depend on the sorting algorithm. *)
Definition sorted (l : list string) : list string := merge_sort String.le l.

(** Cell 10, applied to what [glob.glob] returned:
    <<
    parfiles = sorted(glob.glob(datadir + '/*.par'))
    parfiles = [x for x in parfiles if x.split('/')[-1].split('.')[0] in psrlist]
    >>
    and the same for [timfiles]. *)
Definition filter_psrs (files : list string) : list string :=
  filter (λ x, psr_of_path x ∈ psrlist) files.
Definition parfiles (glob_par : list string) : list string :=
  filter_psrs (sorted glob_par).
Definition timfiles (glob_tim : list string) : list string :=
  filter_psrs (sorted glob_tim).

(** ** Cells 14 to 18: loading pulsars and noise dictionaries *)

(** A call either returns or raises.  The notebook has no [try]: a raised
    exception leaves the running cell at once. *)
Inductive result (E A : Type) : Type :=
  | Ok (a : A)
  | Raise (e : E).
Arguments Ok {E A} a.
Arguments Raise {E A} e.

Definition result_bind {E A B} (m : result E A) (k : A → result E B) : result E B :=
  match m with
  | Ok a => k a
  | Raise e => Raise e
  end.

Notation "'try' x <- m ; k" := (result_bind m (λ x, k))
  (at level 10, x name, m at level 100, k at level 200).

Definition returned {E A} (m : result E A) : Prop := ∃ a, m = Ok a.

Section loading.
(** [Exn]: Python exceptions; [Psr]: [enterprise.pulsar.Pulsar] objects;
    [V]: the values of the noise dictionaries. *)
Context {Exn Psr V : Type}.

(** [Pulsar(p, t, ephem='DE436', clk=None)]: the library either raises or
    returns the object together with the warnings it printed on the way
    (such as the one about a missing pulsar distance). *)
Variable Pulsar : string → string → result Exn (Psr * list string).

(** [open(nf, 'r')] followed by [json.load(fin)]. *)
Variable json_load : string → result Exn (gmap string V).

(** Cell 14:
    <<
    psrs = []
    for p, t in zip(parfiles[:2], timfiles[:2]):
        psr = Pulsar(p, t, ephem='DE436', clk=None)
        psrs.append(psr)
    >>
    The state of the loop is [psrs] and the warnings printed so far. *)
Fixpoint load_psrs_loop (pairs : list (string * string))
    (psrs : list Psr) (out : list string) : result Exn (list Psr * list string) :=
  match pairs with
  | [] => Ok (psrs, out)
  | (p, t) :: pairs =>
      try psr <- Pulsar p t;
      load_psrs_loop pairs (psrs ++ [psr.1]) (out ++ psr.2)
  end.

Definition load_psrs (parfiles timfiles : list string) :
    result Exn (list Psr * list string) :=
  load_psrs_loop (zip (take 2 parfiles) (take 2 timfiles)) [] [].

(** Cells 17 and 18:
    <<
    noisefiles = sorted(glob.glob('.../*.json'))
    params = {}
    for nf in noisefiles:
        with open(nf, 'r') as fin:
            params.update(json.load(fin))
    >>
    [params.update(d)] gives every key of [d] the value it has in [d] and
    keeps the other keys: the union that prefers [d]. *)
Definition dict_update (params d : gmap string V) : gmap string V := d ∪ params.

Fixpoint load_params_loop (noisefiles : list string)
    (params : gmap string V) : result Exn (gmap string V) :=
  match noisefiles with
  | [] => Ok params
  | nf :: noisefiles =>
      try d <- json_load nf;
      load_params_loop noisefiles (dict_update params d)
  end.

Definition noisefiles (glob_noise : list string) : list string :=
  sorted glob_noise.

Definition load_params (glob_noise : list string) : result Exn (gmap string V) :=
  load_params_loop (noisefiles glob_noise) ∅.

(** File [nf] holds key [k]. *)
Definition holds_key (nf : string) (k : string) : Prop :=
  ∃ d, json_load nf = Ok d ∧ is_Some (d !! k).

(** [e] is raised by the first call of [f], along [l], that raises. *)
Definition first_raise {A B} (f : A → result Exn B) (l : list A) (e : Exn) : Prop :=
  ∃ pre x post, l = pre ++ x :: post
                ∧ Forall (λ y, returned (f y)) pre ∧ f x = Raise e.

(** What the calls of [f] along [l] returned. *)
Definition returns_of {A B} (f : A → result Exn B) (l : list A) : list B :=
  omap (λ x, match f x with Ok b => Some b | Raise _ => None end) l.

(** Cells 14 to 18 in sequence. *)
Definition load_data (parfiles timfiles glob_noise : list string) :
    result Exn (list Psr * list string * gmap string V) :=
  try loaded <- load_psrs parfiles timfiles;
  try params <- load_params glob_noise;
  Ok (loaded, params).
End loading.

(** ** Cells 27 to 29 and 47 to 48: assembling the models *)

(** The signal classes the notebook builds, named after its variables:
    [ef], [eq], [ec], [rn], [dm_gp], [tm], [eph], [gw], and the results of
    [dm_annual_signal()] and [dm_exponential_dip(...)] (whose search window
    is left out). *)
Inductive signal : Type :=
  | MeasurementNoise
  | EquadNoise
  | EcorrKernelNoise
  | RedNoise
  | DmGP
  | TimingModel
  | PhysicalEphemerisSignal
  | GWB
  | DmAnnual
  | DmExponentialDip.

#[export] Instance signal_eq_dec : EqDecision signal.
Proof. solve_decision. Defined.

(** Adding signal classes collects them: [s1 + s2] is the collection of the
    signals of [s1] followed by those of [s2]. *)
Definition signal_add (s1 s2 : list signal) : list signal := s1 ++ s2.

(** Cell 28: [s = ef + eq + rn + dm_gp + tm + eph + gw] *)
Definition s_cell28 : list signal :=
  signal_add (signal_add (signal_add (signal_add (signal_add (signal_add
    [MeasurementNoise] [EquadNoise]) [RedNoise]) [DmGP]) [TimingModel])
    [PhysicalEphemerisSignal]) [GWB].

(** Cell 47: the same sum, then [s += dm_annual_signal()] *)
Definition s_cell47 : list signal := signal_add s_cell28 [DmAnnual].

Section assembly.
(** [Psr] are the loaded [Pulsar] objects; [p.name] and [p.flags['pta']]
    (one flag value per TOA) are attributes of the library's class. *)
Context {Psr : Type}.
Variable psr_name : Psr → string.
Variable psr_flags_pta : Psr → list string.

(** [s2(p)]: a signal collection instantiated for a pulsar. *)
Definition model : Type := list signal * Psr.

(** Cell 29:
    <<
    models = []
    for p in psrs:
        if 'NANOGrav' in p.flags['pta']:
            s2 = s + ec
            models.append(s2(p))
        else:
            models.append(s(p))
    >> *)
Fixpoint assemble_cell29 (s : list signal) (psrs : list Psr)
    (models : list model) : list model :=
  match psrs with
  | [] => models
  | p :: psrs =>
      if decide ("NANOGrav" ∈ psr_flags_pta p) then
        let s2 := signal_add s [EcorrKernelNoise] in
        assemble_cell29 s psrs (models ++ [(s2, p)])
      else
        assemble_cell29 s psrs (models ++ [(s, p)])
  end.

(** Cell 48:
    <<
    models = []
    for p in psrs:
        if 'NANOGrav' in p.flags['pta']:
            s2 = s + ec
            if p.name == 'J1713+0747':
                s3 = s2 + dm_exponential_dip(tmin=..., tmax=...)
                models.append(s3(p))
            else:
                models.append(s2(p))
        else:
            models.append(s(p))
    >> *)
Fixpoint assemble_cell48 (s : list signal) (psrs : list Psr)
    (models : list model) : list model :=
  match psrs with
  | [] => models
  | p :: psrs =>
      if decide ("NANOGrav" ∈ psr_flags_pta p) then
        let s2 := signal_add s [EcorrKernelNoise] in
        if decide (psr_name p = "J1713+0747") then
          let s3 := signal_add s2 [DmExponentialDip] in
          assemble_cell48 s psrs (models ++ [(s3, p)])
        else
          assemble_cell48 s psrs (models ++ [(s2, p)])
      else
        assemble_cell48 s psrs (models ++ [(s, p)])
  end.

Definition models_first (psrs : list Psr) : list model :=
  assemble_cell29 s_cell28 psrs [].
Definition models_second (psrs : list Psr) : list model :=
  assemble_cell48 s_cell47 psrs [].

(** The collection each loop instantiates for pulsar [p]. *)
Definition signals_cell29 (s : list signal) (p : Psr) : list signal :=
  if decide ("NANOGrav" ∈ psr_flags_pta p)
  then signal_add s [EcorrKernelNoise] else s.
Definition signals_cell48 (s : list signal) (p : Psr) : list signal :=
  if decide ("NANOGrav" ∈ psr_flags_pta p)
  then if decide (psr_name p = "J1713+0747")
       then signal_add (signal_add s [EcorrKernelNoise]) [DmExponentialDip]
       else signal_add s [EcorrKernelNoise]
  else s.

(** The terms the specification lists as part of every model. *)
Definition common_signals : list signal :=
  [MeasurementNoise; EquadNoise; RedNoise; DmGP; TimingModel;
   PhysicalEphemerisSignal; GWB].
End assembly.

(** ** Cells 40 to 43 and 61 to 63: from the chain to the upper limit *)

(** [int(x)] truncates towards zero. *)
Definition py_int (x : Q) : Z := (Qnum x ÷ Zpos (Qden x))%Z.

(** [a[j]] on an axis of length [n]: a negative index counts from the end,
    an index outside [-n, n) is an [IndexError]. *)
Definition py_index (n : nat) (j : Z) : option nat :=
  if decide (0 ≤ j < Z.of_nat n)%Z then Some (Z.to_nat j)
  else if decide (- Z.of_nat n ≤ j < 0)%Z then Some (Z.to_nat (Z.of_nat n + j))
  else None.

(** [list(pars).index(name)]: the first position of [name], or a
    [ValueError]. *)
Definition py_list_index (name : string) (pars : list string) : option nat :=
  fst <$> list_find (λ x, x = name) pars.

(** A two-dimensional array, as [np.loadtxt] returns it for [chain_1.txt]:
    its rows, and the length of its second axis. *)
Record ndarray2 (F : Type) : Type := { rows : list (list F); ncols : nat }.
Arguments rows {F} _.
Arguments ncols {F} _.

Section postprocessing.
Context {F : Type} `{NpFloat F}.

Definition well_shaped (chain : ndarray2 F) : Prop :=
  Forall (λ r, length r = ncols chain) (rows chain).

(** [np.percentile(a, q)] belongs to numpy. *)
Variable np_percentile : list F → F → F.

(** [burn = int(0.25 * chain.shape[0])] *)
Definition burn (chain : ndarray2 F) : nat :=
  Z.to_nat (py_int ((1 # 4) * inject_Z (Z.of_nat (length (rows chain))))).

(** [chain[burn:, j]] *)
Definition np_rows_from_col (chain : ndarray2 F) (start : nat) (j : Z) :
    option (list F) :=
  c ← py_index (ncols chain) j;
  mapM (λ r : list F, r !! c) (drop start (rows chain)).

(** Cell 43: [upper = 10**np.percentile(chain[burn:, -5], q=95)] *)
Definition upper (chain : ndarray2 F) : option F :=
  col ← np_rows_from_col chain (burn chain) (-5);
  Some (f_pow (f_lit 10) (np_percentile col (f_lit 95))).

(** Modelled from the spec: [model_utils.ul] belongs to
    [enterprise_extensions] and is not part of the notebook; the upper limit
    it reports for samples [chain] and percentile [q] is 10 raised to the
    [q]-th percentile of the samples. *)
Definition model_utils_ul (chain : list F) (q : F) : F :=
  f_pow (f_lit 10) (np_percentile chain q).

(** Cells 62 and 63:
    <<
    ind = list(pars).index('log10_A_gw')
    print model_utils.ul(chain[burn:, ind], q=95.0)
    >> *)
Definition upper_model_utils (chain : ndarray2 F) (pars : list string) : option F :=
  ind ← py_list_index "log10_A_gw" pars;
  col ← np_rows_from_col chain (burn chain) (Z.of_nat ind);
  Some (model_utils_ul col (f_lit 95)).

(** The specification's words.  The burn-in: the first [floor(0.25 * n)] of
    the [n] rows.  The post-burn-in samples of column [c]: the entries at
    [c] of the remaining rows. *)
Definition burn_in (chain : ndarray2 F) : list (list F) :=
  take (length (rows chain) `div` 4) (rows chain).
Definition post_burn_in_samples (chain : ndarray2 F) (c : nat) : list F :=
  omap (λ r : list F, r !! c) (drop (length (burn_in chain)) (rows chain)).
Definition upper_limit_95 (chain : ndarray2 F) (c : nat) : F :=
  f_pow (f_lit 10) (np_percentile (post_burn_in_samples chain c) (f_lit 95)).
End postprocessing.

(** ** [np.loadtxt]: from the text file to the array

    A text file is the list of its lines, a line the list of its tokens;
    blank lines are skipped.  Lines with different numbers of tokens are a
    [ValueError].  What comes back is squeezed: only two or more rows of
    two or more columns make a matrix; a file with one row or one column
    gives a one-dimensional array, a single token a zero-dimensional one,
    and a file without data an empty one-dimensional array. *)
Inductive loaded (A : Type) : Type :=
  | Array0 (x : A)
  | Array1 (a : list A)
  | Array2 (chain : ndarray2 A).
Arguments Array0 {A} x.
Arguments Array1 {A} a.
Arguments Array2 {A} chain.

Definition data_rows {A} (lines : list (list A)) : list (list A) :=
  filter (λ r, r ≠ []) lines.

Definition np_loadtxt {A} (lines : list (list A)) : option (loaded A) :=
  match data_rows lines with
  | [] => Some (Array1 [])
  | first :: rest =>
      if decide (Forall (λ r, length r = length first) rest) then
        Some match rest, first with
             | [], [x] => Array0 x
             | [], _ => Array1 first
             | _ :: _, [_] => Array1 (concat (first :: rest))
             | _ :: _, _ =>
                 Array2 {| rows := first :: rest; ncols := length first |}
             end
      else None
  end.

(** [n] rows of [c] tokens each. *)
Definition rectangular {A} (data : list (list A)) (n c : nat) : Prop :=
  length data = n ∧ Forall (λ r, length r = c) data.

(** [a.shape[0]]: an [IndexError] on a zero-dimensional array. *)
Definition shape0 {A} (a : loaded A) : option nat :=
  match a with
  | Array0 _ => None
  | Array1 a => Some (length a)
  | Array2 chain => Some (length (rows chain))
  end.

(** [list(a)]: a [TypeError] on a zero-dimensional array.  The rows of a
    matrix are arrays, not names: comparing one with a string in [index]
    raises. *)
Definition py_list {A} (a : loaded A) : option (list A) :=
  match a with
  | Array0 _ => None
  | Array1 a => Some a
  | Array2 _ => None
  end.

Section postprocessing_cells.
Context {F : Type} `{NpFloat F}.
Variable np_percentile : list F → F → F.

(** [a[start:, j]]: an [IndexError] (too many indices) unless [a] is a
    matrix. *)
Definition np_index2 (a : loaded F) (start : nat) (j : Z) : option (list F) :=
  match a with
  | Array2 chain => np_rows_from_col chain start j
  | _ => None
  end.

(** Cells 40 and 61:
    <<
    chain = np.loadtxt(outdir + '/chain_1.txt')
    burn = int(0.25*chain.shape[0])
    >> *)
Definition load_chain (lines : list (list F)) : option (loaded F * nat) :=
  chain ← np_loadtxt lines;
  n ← shape0 chain;
  Some (chain, Z.to_nat (py_int ((1 # 4) * inject_Z (Z.of_nat n)))).

(** Cells 40 to 43, from the file on: [chain[burn:, -5]] and [upper]. *)
Definition chain_column (lines : list (list F)) : option (list F) :=
  cb ← load_chain lines;
  np_index2 cb.1 cb.2 (-5).

Definition upper_cells (lines : list (list F)) : option F :=
  col ← chain_column lines;
  Some (f_pow (f_lit 10) (np_percentile col (f_lit 95))).

(** Cells 61 to 63, from the files on:
    <<
    pars = np.loadtxt(outdir + '/pars.txt', dtype=np.unicode_)
    ind = list(pars).index('log10_A_gw')
    print model_utils.ul(chain[burn:, ind], q=95.0)
    >> *)
Definition model_utils_column (lines : list (list F))
    (names : list (list string)) : option (list F) :=
  cb ← load_chain lines;
  pars ← np_loadtxt names;
  l ← py_list pars;
  ind ← py_list_index "log10_A_gw" l;
  np_index2 cb.1 cb.2 (Z.of_nat ind).

Definition upper_model_utils_cells (lines : list (list F))
    (names : list (list string)) : option F :=
  col ← model_utils_column lines names;
  Some (model_utils_ul np_percentile col (f_lit 95)).
End postprocessing_cells.

(** [pars.txt] as the sampler writes it: one name on each line. *)
Definition pars_file (pars : list string) : list (list string) :=
  (λ x, [x]) <$> pars.

(** ** A data directory

    The file of pulsar [n] with extension [ext] (such as ["par"] or
    ["IPTADR2.tim"]) in directory [d], and what makes a pulsar name: a
    fixed number of characters, none of them ['/'] or ['.']. *)
Definition data_file (d ext n : string) : string := d +:+ n +:+ String "." ext.
Definition psr_name_of_length (len : nat) (n : string) : Prop :=
  String.length n = len ∧ ¬ occurs "/" n ∧ ¬ occurs "." n.

(** ** Cells 22 and 48: the time span and the priors of the dip *)

(** [a.min()], [np.min(a)], [a.max()], [np.max(a)] over the reals: the
    least and the greatest entry; a [ValueError] on an empty array. *)
Definition np_min (a : list R) : option R :=
  match a with
  | [] => None
  | x :: a => Some (foldl Rmin x a)
  end.
Definition np_max (a : list R) : option R :=
  match a with
  | [] => None
  | x :: a => Some (foldl Rmax x a)
  end.

Section span.
(** [p.toas], the TOAs of a loaded pulsar in seconds. *)
Context {Psr : Type}.
Variable psr_toas : Psr → list R.

(** Cell 22:
    <<
    tmin = [p.toas.min() for p in psrs]
    tmax = [p.toas.max() for p in psrs]
    Tspan = np.max(tmax) - np.min(tmin)
    >> *)
Definition tmin (psrs : list Psr) : option (list R) :=
  mapM (λ p, np_min (psr_toas p)) psrs.
Definition tmax (psrs : list Psr) : option (list R) :=
  mapM (λ p, np_max (psr_toas p)) psrs.
Definition Tspan (psrs : list Psr) : option R :=
  lo ← tmin psrs; hi ← tmax psrs;
  top ← np_max hi; bottom ← np_min lo;
  Some (top - bottom)%R.
End span.

(** [np.log10] *)
Definition np_log10 (x : R) : R := (ln x / ln 10)%R.

(** [parameter.Uniform(a, b)]: a prior with support from [a] to [b]. *)
Record Uniform : Type := { pmin : R; pmax : R }.
Definition in_support (x : R) (u : Uniform) : Prop := (pmin u <= x <= pmax u)%R.

(** Cell 45, [dm_exponential_dip(tmin, tmax, idx=2)]: the priors it puts
    on the arguments of [chrom_exp_decay].
    <<
    t0_dmexp = parameter.Uniform(tmin,tmax)
    log10_Amp_dmexp = parameter.Uniform(-10, -2)
    log10_tau_dmexp = parameter.Uniform(np.log10(5), np.log10(100))
    wf = chrom_exp_decay(log10_Amp=log10_Amp_dmexp, t0=t0_dmexp,
                         log10_tau=log10_tau_dmexp, idx=idx)
    >> *)
Record dmexp_priors : Type := {
  t0_dmexp : Uniform;
  log10_Amp_dmexp : Uniform;
  log10_tau_dmexp : Uniform;
  idx_dmexp : R
}.
Definition dm_exponential_dip (tmin tmax idx : R) : dmexp_priors :=
  {| t0_dmexp := {| pmin := tmin; pmax := tmax |};
     log10_Amp_dmexp := {| pmin := -10; pmax := -2 |};
     log10_tau_dmexp := {| pmin := np_log10 5; pmax := np_log10 100 |};
     idx_dmexp := idx |}.

(** ** Cells 74 and 78: the samples of one model *)

Section model_selection.
Context {F : Type} `{NpFloat F}.

(** [x > 0.5] and [x < 0.5] on [float64], and the literal [0.5]. *)
Variable f_ltb : F → F → bool.
Variable half : F.

(** [a[mask]] for a boolean array [mask] as long as [a]. *)
Definition np_mask (a : list F) (mask : list bool) : list F :=
  (filter (λ xm, xm.2 = true) (zip a mask)).*1.

(** Cell 74:
    <<
    chain_burn = chain[burn:,:]
    ind_model = list(pars).index('nmodel')
    ind_gwamp = list(pars).index('log10_A_gw')
    chain_burn[chain_burn[:, ind_model] > 0.5, ind_gwamp]
    >>
    and cell 78 with [< 0.5].  [test] is the comparison with 0.5.  numpy
    reads [a[mask, j]] as the entries [a[i, j]] of the rows [i] at which
    [mask] holds, in order: column [j] indexed by the mask. *)
Definition model_samples (test : F → bool) (chain : ndarray2 F)
    (pars : list string) : option (list F) :=
  ind_model ← py_list_index "nmodel" pars;
  ind_gwamp ← py_list_index "log10_A_gw" pars;
  model_col ← np_rows_from_col chain (burn chain) (Z.of_nat ind_model);
  gwamp_col ← np_rows_from_col chain (burn chain) (Z.of_nat ind_gwamp);
  Some (np_mask gwamp_col (test <$> model_col)).

Definition samples_above (chain : ndarray2 F) (pars : list string) :=
  model_samples (λ x, f_ltb half x) chain pars.
Definition samples_below (chain : ndarray2 F) (pars : list string) :=
  model_samples (λ x, f_ltb x half) chain pars.
End model_selection.

(** ** Sample inputs

    Concrete inputs on which the embedding is run below. *)

(** Two TOAs and their radio frequencies, as arrays 0 and 1 of a heap. *)
Definition sample_heap : list (list R) := [[0; 86400]; [1400; 800]]%R.

(** The same two arrays in a world with the constants of
    [enterprise.constants]. *)
Definition sample_world : world R :=
  {| arrays := sample_heap; day_attr := 86400; fyr_attr := 1 / 31557600;
     np_errstate := ErrWarn; warned := [] |}%R.

(** A world in which [t0] is passed as an array: [toas] is array 0,
    [freqs] array 1 and [t0], one day in MJD, array 2. *)
Definition sample_world_t0 : world R :=
  {| arrays := [[86400]; [1400]; [1]]%R;
     day_attr := 86400%R; fyr_attr := (1 / 31557600)%R;
     np_errstate := ErrWarn; warned := [] |}.

(** The C library at the arguments the float64 examples reach: the cases
    the C standard fixes ([pow(x, 0) = 1], [pow(1, y) = 1], [sin(0) = 0],
    [exp] overflowing above [log(DBL_MAX)]), and the values numpy returns
    for [10 ** -7.0], [10 ** np.log10(5)] and
    [np.sin(2 * np.pi * const.fyr * (1 / const.fyr))].  The examples reach
    no other argument; NaN stands in for them. *)
Definition sample_pow (x y : float) : float :=
  if PrimFloat.eqb y 0%float then 1%float
  else if PrimFloat.eqb x 1%float then 1%float
  else if PrimFloat.eqb x 10%float && PrimFloat.eqb y (-7)%float
       then 0x1.ad7f29abcaf48p-24%float
  else if PrimFloat.eqb x 10%float && PrimFloat.eqb y 0x1.65df657b04301p-1%float
       then 0x1.4000000000001p+2%float
  else nan.

Definition sample_exp (x : float) : float :=
  if PrimFloat.ltb 0x1.62e42fefa39efp+9%float x then infinity
  else if PrimFloat.eqb x 0%float then 1%float
  else nan.

Definition sample_sin (x : float) : float :=
  if PrimFloat.eqb x 0%float then x
  else if PrimFloat.eqb x 0x1.921fb54442d18p+2%float
       then (-0x1.1a62633145c07p-52)%float
  else nan.

Definition sample_libm : libm :=
  {| libm_pow := sample_pow; libm_exp := sample_exp; libm_sin := sample_sin |}.

Definition sample_f64 : NpFloat float := F64_float sample_libm.

(** [const.fyr] of [enterprise.constants]: one over the Julian year in
    seconds. *)
Definition sample_fyr : float := (1 / 31557600)%float.

(** One TOA at MJD 53000 observed at 1400 MHz, in a world with numpy's
    defaults. *)
Definition sample_world_f64 : world float :=
  {| arrays := [[4579200000%float]; [1400%float]];
     day_attr := 86400%float; fyr_attr := sample_fyr;
     np_errstate := ErrWarn; warned := [] |}.

(** Two noise files that share the key ["efac"]. *)
Definition sample_json_load (nf : string) : result string (gmap string Z) :=
  if decide (nf = "noise/a.json") then Ok {[ "efac" := 1%Z ]}
  else if decide (nf = "noise/b.json")
       then Ok (<[ "efac" := 2%Z ]> {[ "equad" := 3%Z ]})
       else Raise "IOError".

(** A chain of eight samples: one parameter column and the four auxiliary
    columns of the sampler. *)
Definition sample_chain : ndarray2 R :=
  {| rows := [ [-15; 0; 0; 0; 0]; [-14; 0; 0; 0; 0]; [-16; 0; 0; 0; 0];
               [-15; 0; 0; 0; 0]; [-13; 0; 0; 0; 0]; [-14; 0; 0; 0; 0];
               [-15; 0; 0; 0; 0]; [-17; 0; 0; 0; 0] ]%R;
     ncols := 5 |}.

(** What a [chain_1.txt] holds: four samples of two parameters, followed by
    the four auxiliary columns of the sampler, and a blank line. *)
Definition sample_chain_file : list (list R) :=
  [ [3; -15; 0; 0; 0; 0]; [4; -14; 0; 0; 0; 0]; [];
    [3; -16; 0; 0; 0; 0]; [5; -13; 0; 0; 0; 0] ]%R.

(** A stand-in for [np.percentile] (the largest sample). *)
Definition sample_percentile (a : list R) (q : R) : R := foldr Rmax (-20)%R a.

(** A [Pulsar] constructor that warns about the distance of every pulsar
    and cannot read the files of J0437-4715. *)
Definition sample_Pulsar (p t : string) : result string (string * list string) :=
  if decide (psr_of_path p = "J0437-4715") then Raise "IOError"
  else Ok (psr_of_path p, ["WARNING: Could not find pulsar distance"]).

(** Two pulsars as (name, ['pta'] flags). *)
Definition sample_psrs : list (string * list string) :=
  [ ("J1713+0747", ["NANOGrav"; "NANOGrav"; "PPTA"]); ("J0437-4715", ["PPTA"]) ].

(** Three pulsar names, in the order a directory might list them. *)
Definition sample_names : list string :=
  ["J0437-4715"; "J9999+0000"; "J0030+0451"].

(** The TOAs of two pulsars. *)
Definition sample_toas : list (list R) := [[86400; 0]; [43200]]%R.

(** [x < y] on the reals, as a boolean. *)
Definition R_ltb (x y : R) : bool := if Rlt_dec x y then true else false.

(** A chain of a two-model run: ['log10_A_gw'], ['nmodel'] and the four
    auxiliary columns. *)
Definition sample_hyper_chain : ndarray2 R :=
  {| rows := [ [-15; 0.2; 0; 0; 0; 0]; [-14; 0.9; 0; 0; 0; 0];
               [-16; 0.5; 0; 0; 0; 0]; [-15; 1.2; 0; 0; 0; 0] ]%R;
     ncols := 6 |}.

(** * Properties *)

Section numpy_facts.
Context {F : Type} `{NpFloat F}.

Lemma np_binop_same_length (op : F → F → F) (a b : list F) :
  length a = length b → np_binop op a b = Some (zip_with op a b).
Proof. intros Hl. unfold np_binop. by rewrite decide_True. Qed.

Lemma zip_with_map_same {A B C D} (g : C → D → B) (p : A → C) (q : A → D)
    (l : list A) :
  zip_with g (map p l) (map q l) = map (λ x, g (p x) (q x)) l.
Proof. induction l as [|x l IH]; simpl; [done | by rewrite IH]. Qed.

(** Combining an array computed from [a] with one computed from [b] is one
    broadcast of the fused scalar function over [a] and [b]. *)
Lemma np_binop_map (op : F → F → F) (p q : F → F) (a b : list F) :
  np_binop op (map p a) (map q b) = np_binop (λ x y, op (p x) (q y)) a b.
Proof.
  unfold np_binop. rewrite !length_map.
  case_decide as Hl.
  - f_equal. rewrite zip_with_fmap_l, zip_with_fmap_r. done.
  - destruct a as [|x [|x' a]], b as [|y [|y' b]]; simpl in *;
      try done; try lia; by rewrite ?map_map.
Qed.
End numpy_facts.

Section waveform_facts.
Context {F : Type} `{NpFloat F}.

Lemma chrom_exp_decay_fused (toas freqs : list F) (A t0 lt idx : F) :
  chrom_exp_decay toas freqs A t0 lt idx
  = np_binop (exp_decay_closed_form A t0 lt idx) toas freqs.
Proof.
  unfold chrom_exp_decay, np_arr_sc, np_sc_arr.
  rewrite !map_map.
  rewrite np_binop_same_length by (by rewrite !length_map).
  rewrite zip_with_map_same. simpl.
  rewrite np_binop_map. done.
Qed.

Lemma chrom_yearly_sinusoid_fused (fyr : F) (toas freqs : list F)
    (A phase idx : F) :
  chrom_yearly_sinusoid fyr toas freqs A phase idx
  = np_binop (yearly_sinusoid_closed_form fyr A phase idx) toas freqs.
Proof.
  unfold chrom_yearly_sinusoid, np_arr_sc, np_sc_arr.
  rewrite !map_map, np_binop_map. done.
Qed.

(** C4: [chrom_yearly_sinusoid] returns the closed-form delay
    [10^log10_Amp * sin(2*pi*fyr*t + phase) * (1400/f)^idx] elementwise. *)
Theorem chrom_yearly_sinusoid_closed_form (fyr : F) (toas freqs : list F)
    (A phase idx : F) :
  chrom_yearly_sinusoid fyr toas freqs A phase idx
  = np_binop (yearly_sinusoid_closed_form fyr A phase idx) toas freqs
  ∧ (length toas = length freqs →
     chrom_yearly_sinusoid fyr toas freqs A phase idx
     = Some (zip_with (yearly_sinusoid_closed_form fyr A phase idx) toas freqs)).
Proof.
  split; [apply chrom_yearly_sinusoid_fused |].
  intros Hl. rewrite chrom_yearly_sinusoid_fused. by apply np_binop_same_length.
Qed.
End waveform_facts.

(** *** The waveforms over the reals *)

Section real_waveforms.
Local Open Scope R_scope.

Lemma R_heaviside_0 (h0 : R) : R_heaviside 0 h0 = h0.
Proof.
  unfold R_heaviside.
  destruct (Rlt_dec 0 0) as [Hlt | _]; [exfalso; lra | done].
Qed.

Lemma np_binop_ext (g g' : R → R → R) (a b : list R) :
  (∀ x y, g x y = g' x y) → np_binop g a b = np_binop g' a b.
Proof.
  intros Hg. unfold np_binop. case_decide as Hl.
  - f_equal. clear Hl. revert b.
    induction a as [|x a IH]; intros [|y b]; simpl; try done.
    by rewrite Hg, IH.
  - destruct a as [|x [|x' a]], b as [|y [|y' b]]; try done; f_equal;
      apply map_ext; intros; apply Hg.
Qed.

(** At the dip epoch the step is [H(0) = 1] and the decay is [exp 0 = 1]. *)
Lemma exp_decay_closed_form_at_t0 (A t0 lt idx f : R) :
  exp_decay_closed_form A t0 lt idx (t0 * 86400) f
  = - Rpower 10 A * Rpower (1400 / f) idx.
Proof.
  unfold exp_decay_closed_form, const_day. simpl.
  replace (t0 * 86400 - t0 * 86400) with 0 by lra.
  rewrite R_heaviside_0.
  replace (- 0 / (Rpower 10 lt * 86400)) with 0 by (unfold Rdiv; lra).
  rewrite exp_0. lra.
Qed.

(** C2: where a TOA equals the dip epoch in seconds, [t0 * 86400] ([t0] is
    given in MJD), the returned delay is [-10^log10_Amp * (1400/f)^idx]:
    the Heaviside factor and the exponential factor are both 1. *)
Theorem chrom_exp_decay_at_t0 (toas freqs : list R) (A t0 lt idx : R)
    (i : nat) (f : R) :
  length toas = length freqs →
  toas !! i = Some (t0 * 86400) →
  freqs !! i = Some f →
  ∃ wf, chrom_exp_decay toas freqs A t0 lt idx = Some wf
        ∧ wf !! i = Some (- Rpower 10 A * Rpower (1400 / f) idx).
Proof.
  intros Hl Ht Hf. eexists. split.
  - rewrite chrom_exp_decay_fused. by apply np_binop_same_length.
  - rewrite lookup_zip_with, Ht, Hf. cbn [mbind option_bind fmap option_fmap option_map].
    by rewrite exp_decay_closed_form_at_t0.
Qed.

Lemma chrom_exp_decay_at_t0_witness :
  ∃ wf, chrom_exp_decay [54000 * 86400; 0] [1400; 800] (-7) 54000 1.7 2
        = Some wf
        ∧ wf !! 0%nat = Some (- Rpower 10 (-7) * Rpower (1400 / 1400) 2).
Proof.
  apply (chrom_exp_decay_at_t0 [54000 * 86400; 0] [1400; 800]
           (-7) 54000 1.7 2 0 1400); reflexivity.
Defined.

Lemma yearly_sinusoid_closed_form_period (fyr A phase idx t f : R) :
  fyr ≠ 0 →
  yearly_sinusoid_closed_form fyr A phase idx (t + 1 / fyr) f
  = yearly_sinusoid_closed_form fyr A phase idx t f.
Proof.
  intros Hfyr. unfold yearly_sinusoid_closed_form. simpl.
  replace (2 * PI * fyr * (t + 1 / fyr) + phase)
    with (2 * PI * fyr * t + phase + 2 * INR 1 * PI)
    by (simpl; field; done).
  by rewrite sin_period.
Qed.

(** C3, as amended: over the reals the annual sinusoid has period [1/fyr]:
    adding one year to every TOA ([toas + 1/const.fyr], array plus scalar)
    leaves the returned delays unchanged.  In float64 it does not, see
    [chrom_yearly_sinusoid_float64_shift]. *)
Theorem chrom_yearly_sinusoid_periodic (fyr : R) (toas freqs : list R)
    (A phase idx : R) :
  fyr ≠ 0 →
  chrom_yearly_sinusoid fyr (np_arr_sc f_add toas (f_div (f_lit 1) fyr))
    freqs A phase idx
  = chrom_yearly_sinusoid fyr toas freqs A phase idx.
Proof.
  intros Hfyr. rewrite !chrom_yearly_sinusoid_fused.
  unfold np_arr_sc.
  rewrite <- (map_id freqs) at 1. rewrite np_binop_map.
  apply np_binop_ext. intros t f. simpl.
  by apply yearly_sinusoid_closed_form_period.
Qed.

Lemma chrom_yearly_sinusoid_periodic_witness :
  chrom_yearly_sinusoid (1 / 31557600)
    (np_arr_sc f_add [0; 86400] (f_div (f_lit 1) (1 / 31557600)))
    [1400; 800] (-7) 0 2
  = chrom_yearly_sinusoid (1 / 31557600) [0; 86400] [1400; 800] (-7) 0 2.
Proof.
  apply (chrom_yearly_sinusoid_periodic (1 / 31557600) [0; 86400]
           [1400; 800] (-7) 0 2).
  lra.
Defined.
End real_waveforms.

(** *** The waveforms in float64 *)

Section float64_waveforms.
Variable cpow : float → float → float.
Variables cexp csin : float → float.

(** What is used of the C library: [10 ** -7.0] and [10 ** np.log10(5)]
    as numpy returns them, [1.0 ** 2.0 = 1.0], and that [exp] overflows to
    infinity above [log(DBL_MAX)]. *)
Hypothesis pow_amp : cpow 10%float (-7)%float = 0x1.ad7f29abcaf48p-24%float.
Hypothesis pow_tau :
  cpow 10%float 0x1.65df657b04301p-1%float = 0x1.4000000000001p+2%float.
Hypothesis pow_one : cpow 1%float 2%float = 1%float.
Hypothesis exp_overflow :
  ∀ x, PrimFloat.ltb 0x1.62e42fefa39efp+9%float x = true → cexp x = infinity.

(** C1 fails on the code: for a TOA at MJD 53000, 4000 days before a dip
    at [t0 = 57000] with [log10_tau = log10(5)] (a decay time of five
    days), [chrom_exp_decay] returns NaN: the step is 0, the exponent is
    [800], [np.exp] overflows to infinity and [-0.0 * inf] is NaN.  The
    closed form of the claim, with the Heaviside step 0 before the epoch,
    is 0 there. *)
Theorem chrom_exp_decay_nan_before_dip :
  @chrom_exp_decay float
     (F64_float {| libm_pow := cpow; libm_exp := cexp; libm_sin := csin |})
     [4579200000%float] [1400%float]
     (-7)%float 57000%float 0x1.65df657b04301p-1%float 2%float
  = Some [nan]
  ∧ ∀ lt : R,
      (@exp_decay_closed_form R R_float (-7) 57000 lt 2 4579200000 1400 = 0)%R.
Proof.
  split.
  - vm_compute. rewrite pow_tau. vm_compute.
    rewrite exp_overflow by reflexivity.
    rewrite pow_amp, pow_one. reflexivity.
  - intros lt. unfold exp_decay_closed_form, const_day. simpl.
    assert (R_heaviside (4579200000 - 57000 * 86400) 1 = 0)%R as ->.
    { unfold R_heaviside. destruct (Rlt_dec _ 0); [done | lra]. }
    ring.
Qed.
End float64_waveforms.

Lemma chrom_exp_decay_nan_before_dip_witness :
  @chrom_exp_decay float sample_f64 [4579200000%float] [1400%float]
     (-7)%float 57000%float 0x1.65df657b04301p-1%float 2%float
  = Some [nan]
  ∧ ∀ lt : R,
      (@exp_decay_closed_form R R_float (-7) 57000 lt 2 4579200000 1400 = 0)%R.
Proof.
  apply (chrom_exp_decay_nan_before_dip sample_pow sample_exp sample_sin).
  - reflexivity.
  - reflexivity.
  - reflexivity.
  - intros x Hx. unfold sample_exp. rewrite Hx. reflexivity.
Defined.

Section float64_samples.
#[local] Existing Instance sample_f64.
Local Open Scope float_scope.

(** In float64 a shift by [1/const.fyr] changes the returned series: at
    TOA 0 the delay is [0.0], one year later it is [-2.45e-23], because
    [2 * np.pi * const.fyr * (1 / const.fyr)] is the double next to
    [2 * pi] and its sine is not zero. *)
Lemma chrom_yearly_sinusoid_float64_shift :
  chrom_yearly_sinusoid sample_fyr
    (np_arr_sc f_add [0] (f_div (f_lit 1) sample_fyr)) [1400] (-7) 0 2
  = Some [-0x1.d9c3250008cf9p-76]
  ∧ chrom_yearly_sinusoid sample_fyr [0] [1400] (-7) 0 2 = Some [0]
  ∧ chrom_yearly_sinusoid sample_fyr
      (np_arr_sc f_add [0] (f_div (f_lit 1) sample_fyr)) [1400] (-7) 0 2
    ≠ chrom_yearly_sinusoid sample_fyr [0] [1400] (-7) 0 2.
Proof.
  split; [reflexivity |]. split; [reflexivity |].
  intros E.
  apply (f_equal (λ o : option (list float),
                    match o with
                    | Some [x] => PrimFloat.eqb x 0
                    | _ => true
                    end)) in E.
  vm_compute in E. discriminate E.
Qed.

(** The call that returns NaN also warns twice, and raises instead when
    numpy is told to ([np.seterr(all='raise')]): what a call does depends
    on numpy's error setting, and it adds to the warnings. *)
Example chrom_exp_decay_call_warns :
  ∃ r w',
    chrom_exp_decay_call 0 1 (-7) (PyFloat 57000) 0x1.65df657b04301p-1 2
      sample_world_f64 = (Some r, w')
    ∧ arrays w' !! r = Some [nan]
    ∧ warned w' = ["exp"; "multiply"]%string
    ∧ (chrom_exp_decay_call 0 1 (-7) (PyFloat 57000) 0x1.65df657b04301p-1 2
         {| arrays := arrays sample_world_f64;
            day_attr := 86400; fyr_attr := sample_fyr;
            np_errstate := ErrRaise; warned := [] |}).1 = None.
Proof.
  eexists _, _. split; [vm_compute; reflexivity |].
  split; [reflexivity |]. split; reflexivity.
Qed.
End float64_samples.

(** *** The waveforms as Python calls *)

Section python_call_facts.
Context {F : Type} `{NpFloat F} `{NpClassify F}.
Implicit Types (w : world F) (r : ref) (a b : list F).

Lemma extends_refl w : extends w w.
Proof. by split_and!. Qed.

Lemma extends_trans w1 w2 w3 : extends w1 w2 → extends w2 w3 → extends w1 w3.
Proof.
  intros (P1 & D1 & Y1 & E1 & L1) (P2 & D2 & Y2 & E2 & L2).
  split_and!; [by etrans | congruence | congruence | congruence | by etrans].
Qed.

Lemma extends_lookup w w' r a :
  extends w w' → arrays w !! r = Some a → arrays w' !! r = Some a.
Proof. intros (P & _) Hr. by eapply prefix_lookup_Some. Qed.

Lemma extends_errstate w w' :
  extends w w' → np_errstate w ≠ ErrRaise → np_errstate w' ≠ ErrRaise.
Proof. intros (_ & _ & _ & E & _). by rewrite E. Qed.

Lemma py_new_spec a w :
  ∃ r' w', py_new a w = (Some r', w') ∧ extends w w'
           ∧ arrays w' !! r' = Some a.
Proof.
  eexists _, _. split; [reflexivity |]. split.
  - split_and!; [by apply prefix_app_r | done..].
  - simpl. by rewrite lookup_app_r, Nat.sub_diag.
Qed.

(** Unless numpy was told to raise, a floating-point error at most adds a
    warning. *)
Lemma py_fp_check_spec (ufunc : string) (flagged : bool) w :
  np_errstate w ≠ ErrRaise →
  ∃ w', py_fp_check ufunc flagged w = (Some (), w') ∧ extends w w'
        ∧ arrays w' = arrays w.
Proof.
  intros Herr. unfold py_fp_check.
  destruct flagged; [| exists w; by split_and!].
  destruct (np_errstate w) eqn:E; [| | done].
  - exists w. by split_and!.
  - eexists. split; [reflexivity |]. split; [| done].
    split_and!; [done.. |]. by apply prefix_app_r.
Qed.

Lemma py_alloc_spec (ufunc : string) (flagged : bool) (c : list F) w :
  np_errstate w ≠ ErrRaise →
  ∃ r' w', py_bind (py_fp_check ufunc flagged) (λ _, py_new c) w
           = (Some r', w')
           ∧ extends w w' ∧ arrays w' !! r' = Some c.
Proof.
  intros Herr.
  destruct (py_fp_check_spec ufunc flagged w Herr) as (w1 & E1 & P1 & _).
  destruct (py_new_spec c w1) as (r' & w' & E2 & P2 & L2).
  exists r', w'. unfold py_bind. rewrite E1.
  split_and!; [done | by eapply extends_trans | done].
Qed.

Lemma py_map_spec (ufunc : string) (g : F → F) r w a :
  arrays w !! r = Some a → np_errstate w ≠ ErrRaise →
  ∃ r' w', py_map ufunc g r w = (Some r', w') ∧ extends w w'
           ∧ arrays w' !! r' = Some (map g a).
Proof.
  intros Hr Herr. unfold py_map. unfold py_bind at 1, py_load. rewrite Hr.
  by apply py_alloc_spec.
Qed.

Lemma py_arr_sc_spec (ufunc : string) (op : F → F → F) r (y : F) w a :
  arrays w !! r = Some a → np_errstate w ≠ ErrRaise →
  ∃ r' w', py_arr_sc ufunc op r y w = (Some r', w') ∧ extends w w'
           ∧ arrays w' !! r' = Some (np_arr_sc op a y).
Proof.
  intros Hr Herr. unfold py_arr_sc. unfold py_bind at 1, py_load. rewrite Hr.
  by apply py_alloc_spec.
Qed.

Lemma py_sc_arr_spec (ufunc : string) (op : F → F → F) (x : F) r w b :
  arrays w !! r = Some b → np_errstate w ≠ ErrRaise →
  ∃ r' w', py_sc_arr ufunc op x r w = (Some r', w') ∧ extends w w'
           ∧ arrays w' !! r' = Some (np_sc_arr op x b).
Proof.
  intros Hr Herr. unfold py_sc_arr. unfold py_bind at 1, py_load. rewrite Hr.
  by apply py_alloc_spec.
Qed.

Lemma py_binop_spec (ufunc : string) (op : F → F → F) r1 r2 w a b :
  arrays w !! r1 = Some a → arrays w !! r2 = Some b →
  np_errstate w ≠ ErrRaise →
  pure_call (py_binop ufunc op r1 r2) w (np_binop op a b).
Proof.
  intros H1 H2 Herr. unfold pure_call, py_binop.
  unfold py_bind at 1, py_load. rewrite H1.
  unfold py_bind at 1. rewrite H2.
  unfold py_bind at 1, py_try.
  destruct (np_binop op a b) as [c|].
  - destruct (py_alloc_spec ufunc
                (existsb (λ p, fp_flag [p.1; p.2] (op p.1 p.2)) (np_pairs a b))
                c w Herr) as (r' & w' & E & P & L).
    exists (Some r'), w'. split_and!; [done | done | by exists r'].
  - exists None, w. split_and!; [done | apply extends_refl | done].
Qed.

(** Sequencing after a step that cannot raise ... *)
Lemma pure_call_bind (m : Py ref) (k : ref → Py ref) w c res :
  np_errstate w ≠ ErrRaise →
  (∃ r w', m w = (Some r, w') ∧ extends w w' ∧ arrays w' !! r = Some c) →
  (∀ r w', extends w w' → np_errstate w' ≠ ErrRaise →
           arrays w' !! r = Some c → pure_call (k r) w' res) →
  pure_call (py_bind m k) w res.
Proof.
  intros Herr (r & w' & E & P & L) Hk.
  destruct (Hk r w' P (extends_errstate _ _ P Herr) L)
    as (o & w'' & E' & P' & Hres).
  exists o, w''. unfold py_bind. rewrite E.
  split_and!; [done | by eapply extends_trans | done].
Qed.

(** ... and after one that raises exactly when [o] is [None]. *)
Lemma pure_call_bind_try (m : Py ref) (k : ref → Py ref) w
    (o : option (list F)) (g : list F → option (list F)) :
  np_errstate w ≠ ErrRaise →
  pure_call m w o →
  (∀ r w' c, o = Some c → extends w w' → np_errstate w' ≠ ErrRaise →
             arrays w' !! r = Some c → pure_call (k r) w' (g c)) →
  pure_call (py_bind m k) w (o ≫= g).
Proof.
  intros Herr (o' & w' & E & P & Hres) Hk. destruct o as [c|]; simpl.
  - destruct Hres as (r & -> & L).
    apply (pure_call_bind m k w c); [done | by exists r, w' |].
    intros; by apply Hk.
  - subst o'. exists None, w'. unfold py_bind. rewrite E. by split_and!.
Qed.

(** Reading a constant, and [v *= c] on a float, change nothing. *)
Lemma pure_call_const_day (k : F → Py ref) w res :
  pure_call (k (day_attr w)) w res → pure_call (py_bind py_const_day k) w res.
Proof. intros Hk. exact Hk. Qed.

Lemma pure_call_const_fyr (k : F → Py ref) w res :
  pure_call (k (fyr_attr w)) w res → pure_call (py_bind py_const_fyr k) w res.
Proof. intros Hk. exact Hk. Qed.

Lemma pure_call_imul_float (k : pyval F → Py ref) (x c : F) w res :
  pure_call (k (PyFloat (f_mul x c))) w res →
  pure_call (py_bind (py_imul (PyFloat x) c) k) w res.
Proof. intros Hk. exact Hk. Qed.

Local Ltac py_step lem r w' P E L :=
  eapply pure_call_bind; [done | by eapply lem | intros r w' P E L].

(** With a float for [t0], [t0 *= const.day] rebinds the name and the call
    writes nowhere. *)
Lemma chrom_exp_decay_call_pure (toas freqs : ref) w ta fa (A t0 lt idx : F) :
  arrays w !! toas = Some ta → arrays w !! freqs = Some fa →
  day_attr w = const_day → np_errstate w ≠ ErrRaise →
  pure_call (chrom_exp_decay_call toas freqs A (PyFloat t0) lt idx) w
            (chrom_exp_decay ta fa A t0 lt idx).
Proof.
  intros Ht Hf Hday Herr.
  unfold chrom_exp_decay_call, chrom_exp_decay.
  apply pure_call_const_day, pure_call_imul_float, pure_call_const_day.
  unfold py_arr_val. rewrite Hday. cbv zeta.
  py_step py_arr_sc_spec r1 w1 P1 He1 L1.
  py_step py_map_spec r2 w2 P2 He2 L2.
  py_step py_sc_arr_spec r3 w3 P3 He3 L3.
  assert (extends w w3) as P03 by eauto using extends_trans.
  pose proof (extends_lookup _ _ _ _ P03 Ht) as Ht3.
  py_step py_arr_sc_spec r4 w4 P4 He4 L4.
  py_step py_map_spec r5 w5 P5 He5 L5.
  py_step py_arr_sc_spec r6 w6 P6 He6 L6.
  py_step py_map_spec r7 w7 P7 He7 L7.
  assert (extends w3 w7) as P37 by eauto using extends_trans.
  pose proof (extends_lookup _ _ _ _ P37 L3) as L3'.
  apply pure_call_bind_try; [done | by apply py_binop_spec |].
  intros r8 w8 wf _ P8 He8 L8.
  assert (extends w w8) as P08 by eauto using extends_trans.
  pose proof (extends_lookup _ _ _ _ P08 Hf) as Hf8.
  py_step py_sc_arr_spec r9 w9 P9 He9 L9.
  py_step py_arr_sc_spec r10 w10 P10 He10 L10.
  assert (extends w8 w10) as P810 by eauto using extends_trans.
  pose proof (extends_lookup _ _ _ _ P810 L8) as L8'.
  by apply py_binop_spec.
Qed.

Lemma chrom_yearly_sinusoid_call_pure (toas freqs : ref) w ta fa
    (A phase idx : F) :
  arrays w !! toas = Some ta → arrays w !! freqs = Some fa →
  np_errstate w ≠ ErrRaise →
  pure_call (chrom_yearly_sinusoid_call toas freqs A phase idx) w
            (chrom_yearly_sinusoid (fyr_attr w) ta fa A phase idx).
Proof.
  intros Ht Hf Herr.
  unfold chrom_yearly_sinusoid_call, chrom_yearly_sinusoid.
  apply pure_call_const_fyr. cbv zeta.
  py_step py_sc_arr_spec r1 w1 P1 He1 L1.
  py_step py_arr_sc_spec r2 w2 P2 He2 L2.
  py_step py_map_spec r3 w3 P3 He3 L3.
  py_step py_sc_arr_spec r4 w4 P4 He4 L4.
  assert (extends w w4) as P04 by eauto using extends_trans.
  pose proof (extends_lookup _ _ _ _ P04 Hf) as Hf4.
  py_step py_sc_arr_spec r5 w5 P5 He5 L5.
  py_step py_arr_sc_spec r6 w6 P6 He6 L6.
  assert (extends w4 w6) as P46 by eauto using extends_trans.
  pose proof (extends_lookup _ _ _ _ P46 L4) as L4'.
  by apply py_binop_spec.
Qed.

Lemma pure_call_result (call : Py ref) w res :
  pure_call call w res → call_result call w = res.
Proof.
  unfold pure_call, call_result. intros (o & w' & -> & _ & Hres).
  destruct res as [wf|].
  - by destruct Hres as (r & -> & ->).
  - by subst o.
Qed.

(** *** Steps that at most allocate and warn *)

Lemma grows_bind {A B} (m : @Py F A) (k : A → @Py F B) :
  grows m → (∀ v : A, grows (k v)) → grows (py_bind m k).
Proof.
  intros Hm Hk w. unfold py_bind. specialize (Hm w).
  destruct (m w) as [[v|] w1]; simpl in *; [| done].
  eapply extends_trans; [done | apply Hk].
Qed.

Lemma grows_ret {A} (v : A) : grows (F:=F) (py_ret v).
Proof. intros w. apply extends_refl. Qed.

Lemma grows_load r : grows (F:=F) (py_load r).
Proof. intros w. apply extends_refl. Qed.

Lemma grows_try {A} (o : option A) : grows (F:=F) (py_try o).
Proof. intros w. apply extends_refl. Qed.

Lemma grows_const_day : grows (F:=F) py_const_day.
Proof. intros w. apply extends_refl. Qed.

Lemma grows_const_fyr : grows (F:=F) py_const_fyr.
Proof. intros w. apply extends_refl. Qed.

Lemma grows_new a : grows (F:=F) (py_new a).
Proof. intros w. split_and!; [by apply prefix_app_r | done..]. Qed.

(** In every setting of [np.seterr]. *)
Lemma grows_fp_check (ufunc : string) (flagged : bool) :
  grows (F:=F) (py_fp_check ufunc flagged).
Proof.
  intros w. unfold py_fp_check.
  destruct flagged; [| apply extends_refl].
  destruct (np_errstate w); [apply extends_refl | | apply extends_refl].
  split_and!; [done.. |]. by apply prefix_app_r.
Qed.

Local Ltac grows_steps :=
  repeat first
    [ apply grows_load | apply grows_try | apply grows_new | apply grows_ret
    | apply grows_fp_check | apply grows_const_day | apply grows_const_fyr
    | apply grows_bind; [| intros ?] ].

Lemma grows_map (ufunc : string) (g : F → F) r : grows (py_map ufunc g r).
Proof. unfold py_map. grows_steps. Qed.

Lemma grows_arr_sc (ufunc : string) (op : F → F → F) r (y : F) :
  grows (py_arr_sc ufunc op r y).
Proof. unfold py_arr_sc. grows_steps. Qed.

Lemma grows_sc_arr (ufunc : string) (op : F → F → F) (x : F) r :
  grows (py_sc_arr ufunc op x r).
Proof. unfold py_sc_arr. grows_steps. Qed.

Lemma grows_binop (ufunc : string) (op : F → F → F) r1 r2 :
  grows (py_binop ufunc op r1 r2).
Proof. unfold py_binop. grows_steps. Qed.

Lemma grows_arr_val (ufunc : string) (op : F → F → F) r (v : pyval F) :
  grows (py_arr_val ufunc op r v).
Proof. destruct v; [apply grows_arr_sc | apply grows_binop]. Qed.

Local Ltac grows_ufuncs :=
  repeat first
    [ apply grows_const_day | apply grows_const_fyr | apply grows_ret
    | apply grows_arr_val | apply grows_map | apply grows_arr_sc
    | apply grows_sc_arr | apply grows_binop
    | apply grows_bind; [| intros ?] ].

(** With floats for the scalars a call writes into no array that was
    there, whatever [np.seterr] says and whether it returns or raises. *)
Lemma chrom_exp_decay_call_grows (toas freqs : ref) (A t0 lt idx : F) :
  grows (chrom_exp_decay_call toas freqs A (PyFloat t0) lt idx).
Proof. unfold chrom_exp_decay_call, py_imul. cbv zeta. grows_ufuncs. Qed.

Lemma chrom_yearly_sinusoid_call_grows (toas freqs : ref) (A phase idx : F) :
  grows (chrom_yearly_sinusoid_call toas freqs A phase idx).
Proof. unfold chrom_yearly_sinusoid_call. cbv zeta. grows_ufuncs. Qed.

(** [v *= c] on an array leaves the product in the caller's array, whatever
    follows. *)
Lemma py_imul_array_in_place {B} (r : ref) (c : F) (k : pyval F → @Py F B)
    w b :
  arrays w !! r = Some b → (∀ v, grows (k v)) →
  arrays (py_bind (py_imul (PyArray r) c) k w).2 !! r
  = Some (np_arr_sc f_mul b c).
Proof.
  intros Hr Hk.
  assert (grows (py_bind
            (py_bind (py_fp_check "multiply"
                        (existsb (λ x, fp_flag [x; c] (f_mul x c)) b))
                     (λ _, py_ret (PyArray r))) k)) as Hrest.
  { apply grows_bind; [| done].
    apply grows_bind; [apply grows_fp_check | intros; apply grows_ret]. }
  set (w1 := with_arrays w (<[r := np_arr_sc f_mul b c]> (arrays w))).
  assert (arrays w1 !! r = Some (np_arr_sc f_mul b c)) as H1.
  { unfold w1. simpl. apply list_lookup_insert_eq. by eapply lookup_lt_Some. }
  specialize (Hrest w1).
  apply (extends_lookup _ _ _ _ Hrest) in H1.
  rewrite <- H1. f_equal. f_equal.
  unfold py_imul. unfold py_bind at 1 2, py_load. rewrite Hr.
  unfold py_bind at 1 2, py_store.
  rewrite decide_True by (by eapply lookup_lt_Some).
  fold w1. unfold py_bind.
  by destruct (py_fp_check _ _ w1) as [[[]|] w2].
Qed.

(** With an array for [t0], the call leaves the caller's array multiplied
    by [const.day]. *)
Lemma chrom_exp_decay_call_in_place (toas freqs r : ref) w b (A lt idx : F) :
  arrays w !! r = Some b →
  arrays (chrom_exp_decay_call toas freqs A (PyArray r) lt idx w).2 !! r
  = Some (np_arr_sc f_mul b (day_attr w)).
Proof.
  intros Hr. unfold chrom_exp_decay_call.
  change (py_bind py_const_day ?k w) with (k (day_attr w) w). cbv beta.
  apply py_imul_array_in_place; [done |].
  intros v. cbv zeta. grows_ufuncs.
Qed.

End python_call_facts.

(** ** The path filter *)

Section path_facts.
Implicit Types (s w x n : string) (c sep : ascii).

Lemma append_cons c s1 s2 : String c s1 +:+ s2 = String c (s1 +:+ s2).
Proof. reflexivity. Qed.

Lemma append_assoc s1 s2 s3 : (s1 +:+ s2) +:+ s3 = s1 +:+ s2 +:+ s3.
Proof.
  induction s1 as [|c s1 IH]; [done |]. by rewrite !append_cons, IH.
Qed.

Lemma append_nil_r s : s +:+ "" = s.
Proof. induction s as [|c s IH]; [done |]. by rewrite append_cons, IH. Qed.

Lemma py_split_cons sep s : ∃ w ws, py_split sep s = w :: ws.
Proof.
  destruct s as [|c s]; simpl; [by eauto |].
  case_decide; [by eauto |]. destruct (py_split sep s); eauto.
Qed.

(** Splitting loses nothing: joining the pieces gives the string back. *)
Lemma py_join_split sep s : py_join sep (py_split sep s) = s.
Proof.
  induction s as [|c s IH]; simpl; [done |].
  case_decide as Hc.
  - subst c. destruct (py_split_cons sep s) as (w & ws & E).
    rewrite E in *. simpl in *. by rewrite IH.
  - destruct (py_split sep s) as [|w [|w' ws]]; simpl in *; by rewrite <- IH.
Qed.

(** No piece contains the separator. *)
Lemma py_split_no_sep sep s : Forall (λ w, ¬ occurs sep w) (py_split sep s).
Proof.
  induction s as [|c s IH]; simpl.
  - constructor; [by intros [] | constructor].
  - case_decide as Hc.
    + constructor; [by intros [] | done].
    + destruct (py_split sep s) as [|w ws].
      * constructor; [| constructor]. simpl. intros [?|[]]. done.
      * inversion_clear IH as [|?? Hw Hws]. constructor; [|done].
        simpl. intros [?|?]; [done | by apply Hw].
Qed.

(** A joined list is a directory part, empty or closed by the separator,
    followed by the last piece. *)
Lemma py_join_last sep (l : list string) w :
  last l = Some w →
  ∃ d, py_join sep l = d +:+ w ∧ (d = "" ∨ ∃ d', d = d' +:+ String sep "").
Proof.
  induction l as [|v [|v' l] IH]; intros Hl; [done | |].
  - injection Hl as ->. exists "". by eauto.
  - destruct IH as (d & E & Hd); [done |].
    change (py_join sep (v :: v' :: l))
      with (v +:+ String sep (py_join sep (v' :: l))).
    rewrite E. exists (v +:+ String sep d). split.
    + by rewrite append_assoc.
    + right. destruct Hd as [-> | (d' & ->)].
      * by exists v.
      * exists (v +:+ String sep d'). by rewrite append_assoc.
Qed.

(** A joined list is its first piece, followed by nothing or by the
    separator and the rest. *)
Lemma py_join_head sep (l : list string) w :
  head l = Some w →
  ∃ r, py_join sep l = w +:+ r ∧ (r = "" ∨ ∃ r', r = String sep r').
Proof.
  destruct l as [|v [|v' l]]; intros Hl; [done | |]; injection Hl as ->.
  - exists "". by rewrite append_nil_r; eauto.
  - eexists. split; [reflexivity | eauto].
Qed.

Lemma occurs_app c s1 s2 : occurs c (s1 +:+ s2) ↔ occurs c s1 ∨ occurs c s2.
Proof.
  induction s1 as [|c' s1 IH]; [change ("" +:+ s2) with s2; simpl; tauto |].
  rewrite append_cons. simpl. rewrite IH. tauto.
Qed.

(** [psr_of_path] computes the prefix, before the first ['.'], of the
    basename of the path. *)
Lemma psr_of_path_spec x : basename_prefix x (psr_of_path x).
Proof.
  unfold psr_of_path, basename_prefix.
  destruct (py_split_cons "/" x) as (w & ws & Ex).
  assert (∃ b, last (py_split "/" x) = Some b) as [b Eb].
  { rewrite Ex. destruct (last (w :: ws)) eqn:E; [by eauto |].
    by apply last_None in E. }
  rewrite Eb. simpl.
  destruct (py_split_cons "." b) as (n & ns & En). rewrite En. simpl.
  destruct (py_join_last "/" _ _ Eb) as (d & Ed & Hd).
  rewrite py_join_split in Ed.
  destruct (py_join_head "." (py_split "." b) n) as (r & Er & Hr);
    [by rewrite En |].
  rewrite py_join_split in Er.
  exists d, r. split_and!; [by rewrite <- Er | done | | | done].
  - rewrite <- Er.
    pose proof (py_split_no_sep "/" x) as Hx.
    rewrite Forall_forall in Hx. apply Hx.
    by apply last_Some_elem_of.
  - pose proof (py_split_no_sep "." b) as Hb. rewrite En in Hb.
    by inversion Hb.
Qed.

Lemma elem_of_psrlist n : n ∈ psrlist ↔ is_Some (psrdict !! n).
Proof.
  unfold psrlist. rewrite list_elem_of_fmap. split.
  - intros ([k v] & -> & Hkv). apply elem_of_map_to_list in Hkv. by eauto.
  - intros [v Hv]. exists (n, v). split; [done |].
    by apply elem_of_map_to_list.
Qed.

End path_facts.

(** ** Loading: exceptions and the noise dictionary *)

Section loading_facts.
Context {Exn Psr V : Type}.
Variable Pulsar : string → string → result Exn (Psr * list string).
Variable json_load : string → result Exn (gmap string V).

Local Abbreviation Pulsar' := (λ pt : string * string, Pulsar pt.1 pt.2).

Lemma first_raise_cons_ok {A B} (f : A → result Exn B) x l e :
  returned (f x) → first_raise f (x :: l) e ↔ first_raise f l e.
Proof.
  intros [b Hb]. split.
  - intros (pre & y & post & E & Hpre & Hy).
    destruct pre as [|z pre]; simplify_eq/=; [congruence |].
    inversion_clear Hpre. by exists pre, y, post.
  - intros (pre & y & post & -> & Hpre & Hy).
    exists (x :: pre), y, post. split_and!; [done | | done].
    constructor; [by exists b | done].
Qed.

Lemma first_raise_cons_raise {A B} (f : A → result Exn B) x l e e' :
  f x = Raise e' → first_raise f (x :: l) e ↔ e = e'.
Proof.
  intros Hx. split.
  - intros (pre & y & post & E & Hpre & Hy).
    destruct pre as [|z pre]; simplify_eq/=; [congruence |].
    inversion_clear Hpre as [|?? [b Hb]]. congruence.
  - intros ->. exists [], x, l. split_and!; [done | constructor | done].
Qed.

Lemma first_raise_nil {A B} (f : A → result Exn B) e : ¬ first_raise f [] e.
Proof. intros (pre & y & post & E & _). by destruct pre. Qed.

(** The pulsar loop raises exactly the exception of the first constructor
    call that raises. *)
Lemma load_psrs_loop_raise pairs psrs out e :
  load_psrs_loop Pulsar pairs psrs out = Raise e ↔ first_raise Pulsar' pairs e.
Proof.
  revert psrs out. induction pairs as [|[p t] pairs IH]; intros psrs out; simpl.
  - split; [done | by intros ?%first_raise_nil].
  - destruct (Pulsar p t) as [[psr w]|e'] eqn:E; simpl.
    + rewrite IH. symmetry. apply first_raise_cons_ok. simpl. by eexists.
    + rewrite (first_raise_cons_raise Pulsar' _ _ _ e') by done.
      split; congruence.
Qed.

(** If every constructor call returns, warnings or not, the loop appends
    one object per pair and only passes the warnings on. *)
Lemma load_psrs_loop_ok pairs psrs out :
  Forall (λ pt, returned (Pulsar' pt)) pairs →
  load_psrs_loop Pulsar pairs psrs out
  = Ok (psrs ++ (returns_of Pulsar' pairs).*1,
        out ++ concat (returns_of Pulsar' pairs).*2)
  ∧ length (returns_of Pulsar' pairs) = length pairs.
Proof.
  intros Hall. revert psrs out.
  induction Hall as [|[p t] pairs [[psr w] Hpt] _ IH]; intros psrs out; simpl.
  - by rewrite !app_nil_r.
  - simpl in Hpt. unfold returns_of in *. simpl. rewrite Hpt. simpl.
    destruct (IH (psrs ++ [psr]) (out ++ w)) as [-> ->].
    by rewrite <- !app_assoc.
Qed.

Lemma load_params_loop_raise files params e :
  load_params_loop json_load files params = Raise e
  ↔ first_raise json_load files e.
Proof.
  revert params. induction files as [|nf files IH]; intros params; simpl.
  - split; [done | by intros ?%first_raise_nil].
  - destruct (json_load nf) as [d|e'] eqn:E; simpl.
    + rewrite IH. symmetry. apply first_raise_cons_ok. by eexists.
    + rewrite (first_raise_cons_raise json_load _ _ _ e') by done.
      split; congruence.
Qed.

(** C7: the notebook handles no exception.  The pulsar loop raises [e]
    exactly when the first [Pulsar] call that raises, raises [e]; a
    warning printed by a call that returns does not stop the loop, which
    then loads one pulsar per par/tim pair; and cells 14 to 18 together
    raise [e] exactly when the first external call that raises (a
    [Pulsar] construction, or reading a noise file once every pulsar is
    loaded), raises [e]. *)
Theorem no_local_error_handling (parfiles timfiles glob_noise : list string) :
  let pairs := zip (take 2 parfiles) (take 2 timfiles) in
  (∀ e, load_psrs Pulsar parfiles timfiles = Raise e
        ↔ first_raise Pulsar' pairs e)
  ∧ (Forall (λ pt, returned (Pulsar' pt)) pairs →
     load_psrs Pulsar parfiles timfiles
     = Ok ((returns_of Pulsar' pairs).*1, concat (returns_of Pulsar' pairs).*2)
     ∧ length (returns_of Pulsar' pairs) = length pairs)
  ∧ (∀ e, load_data Pulsar json_load parfiles timfiles glob_noise = Raise e
          ↔ first_raise Pulsar' pairs e
            ∨ (Forall (λ pt, returned (Pulsar' pt)) pairs
               ∧ first_raise json_load (noisefiles glob_noise) e)).
Proof.
  intros pairs. split_and!.
  - intros e. apply load_psrs_loop_raise.
  - intros Hall. by apply (load_psrs_loop_ok pairs [] []).
  - intros e. unfold load_data.
    destruct (load_psrs Pulsar parfiles timfiles) as [loaded|e'] eqn:El; simpl.
    + assert (Forall (λ pt, returned (Pulsar' pt)) pairs) as Hall.
      { unfold load_psrs in El. fold pairs in El. clear -El.
        revert El. generalize (@nil Psr) (@nil string).
        induction pairs as [|[p t] l IH]; intros psrs out El; [constructor |].
        simpl in El. destruct (Pulsar p t) as [r|] eqn:E; [|done].
        constructor; [by exists r | by eapply IH]. }
      destruct (load_params json_load glob_noise) as [params|e''] eqn:Ep; simpl.
      * split; [done |]. intros [Hr | [_ Hr]].
        -- apply load_psrs_loop_raise with (psrs := []) (out := []) in Hr.
           unfold load_psrs in El. fold pairs in El. congruence.
        -- apply load_params_loop_raise with (params := ∅) in Hr.
           unfold load_params in Ep. congruence.
      * apply load_params_loop_raise in Ep. split.
        -- intros [= ->]. by right.
        -- intros [Hr | [_ Hr]].
           ++ apply load_psrs_loop_raise with (psrs := []) (out := []) in Hr.
              unfold load_psrs in El. fold pairs in El. congruence.
           ++ apply load_params_loop_raise with (params := ∅) in Hr.
              apply load_params_loop_raise with (params := ∅) in Ep.
              congruence.
    + apply load_psrs_loop_raise in El. fold pairs in El. split.
      * intros [= ->]. by left.
      * intros [Hr | [Hall _]].
        -- apply load_psrs_loop_raise with (psrs := []) (out := []) in Hr.
           apply load_psrs_loop_raise with (psrs := []) (out := []) in El.
           congruence.
        -- apply (load_psrs_loop_ok pairs [] []) in Hall as [Hok _].
           apply load_psrs_loop_raise with (psrs := []) (out := []) in El.
           congruence.
Qed.
Lemma elem_of_returns_of {A B} (f : A → result Exn B) (l : list A) (b : B) :
  b ∈ returns_of f l ↔ ∃ x, x ∈ l ∧ f x = Ok b.
Proof.
  unfold returns_of. rewrite list_elem_of_omap. split.
  - intros (x & Hx & E). exists x. split; [done |].
    destruct (f x); congruence.
  - intros (x & Hx & E). exists x. by rewrite E.
Qed.

(** If every file can be read, the loop is the left fold of [dict_update]
    over the dictionaries, in the order of the list. *)
Lemma load_params_loop_ok files params :
  Forall (λ nf, returned (json_load nf)) files →
  load_params_loop json_load files params
  = Ok (foldl dict_update params (returns_of json_load files)).
Proof.
  intros Hall. revert params.
  induction Hall as [|nf files [d Hd] _ IH]; intros params; simpl; [done |].
  unfold returns_of in *. simpl. rewrite Hd. simpl. apply IH.
Qed.

Lemma foldl_dict_update_is_Some (ds : list (gmap string V)) params k :
  is_Some (foldl dict_update params ds !! k)
  ↔ is_Some (params !! k) ∨ ∃ d, d ∈ ds ∧ is_Some (d !! k).
Proof.
  revert params. induction ds as [|d ds IH]; intros params; simpl.
  - split; [by left | intros [? | (d & Hd & _)]; [done | by inversion Hd]].
  - rewrite IH. unfold dict_update. rewrite <- !elem_of_dom, dom_union.
    rewrite elem_of_union, !elem_of_dom. split.
    + intros [[Hd | Hp] | (d' & Hd' & Hk)]; [right | by left | right].
      * exists d. split; [by left | done].
      * exists d'. split; [by right | done].
    + intros [Hp | (d' & Hd' & Hk)]; [by left; right |].
      apply elem_of_cons in Hd' as [-> | Hd']; [by left; left | right].
      by exists d'.
Qed.

Lemma foldl_dict_update_untouched (ds : list (gmap string V)) params k :
  (∀ d, d ∈ ds → d !! k = None) →
  foldl dict_update params ds !! k = params !! k.
Proof.
  revert params. induction ds as [|d ds IH]; intros params Hds; simpl; [done |].
  rewrite IH by (intros; apply Hds; by right).
  unfold dict_update. apply lookup_union_r, Hds. by left.
Qed.

(** Along a sorted list of files, a key ends with the value of the last
    file that holds it. *)
Lemma foldl_dict_update_last files params k nf d :
  StronglySorted String.le files →
  nf ∈ files → json_load nf = Ok d → is_Some (d !! k) →
  (∀ g, g ∈ files → holds_key json_load g k → String.le g nf) →
  foldl dict_update params (returns_of json_load files) !! k = d !! k.
Proof.
  intros Hsorted. revert params.
  induction Hsorted as [|g rest Hrest IH Hg]; intros params Hnf Hd Hk Hmax.
  { by inversion Hnf. }
  assert (returns_of json_load (g :: rest)
          = match json_load g with
            | Ok dg => dg :: returns_of json_load rest
            | Raise _ => returns_of json_load rest
            end) as -> by (unfold returns_of; simpl; by destruct (json_load g)).
  destruct (decide (nf ∈ rest)) as [Hin | Hnotin].
  - assert (∀ g', g' ∈ rest → holds_key json_load g' k → String.le g' nf)
      as Hmax' by (intros; apply Hmax; [by right | done]).
    destruct (json_load g); simpl; by apply IH.
  - apply elem_of_cons in Hnf as [-> | ?]; [| done].
    rewrite Hd. simpl.
    rewrite foldl_dict_update_untouched.
    + unfold dict_update. destruct Hk as [v Hv].
      rewrite Hv. by apply lookup_union_Some_l.
    + intros d' (g' & Hg' & Ed')%elem_of_returns_of.
      destruct (d' !! k) as [v'|] eqn:Ek; [exfalso | done].
      assert (g' = g) as ->; [| done].
      apply (anti_symm String.le).
      * apply Hmax; [by right | by exists d'; eauto].
      * rewrite Forall_forall in Hg. by apply Hg.
Qed.

Lemma elem_of_sorted (l : list string) x : x ∈ sorted l ↔ x ∈ l.
Proof. unfold sorted. by rewrite merge_sort_Permutation. Qed.

(** C9: when every noise file can be read, [params] is the left fold of
    [dict.update] over the files in sorted order; a key is in [params]
    exactly if some noise file holds it; and a key has the value it has in
    the lexicographically last file that holds it. *)
Theorem params_last_file_wins (glob_noise : list string) :
  Forall (λ nf, returned (json_load nf)) glob_noise →
  ∃ params,
    load_params json_load glob_noise = Ok params
    ∧ params = foldl dict_update ∅ (returns_of json_load (sorted glob_noise))
    ∧ (∀ k, is_Some (params !! k)
            ↔ ∃ nf, nf ∈ glob_noise ∧ holds_key json_load nf k)
    ∧ (∀ k nf d,
         nf ∈ glob_noise → json_load nf = Ok d → is_Some (d !! k) →
         (∀ g, g ∈ glob_noise → holds_key json_load g k → String.le g nf) →
         params !! k = d !! k).
Proof.
  intros Hall. eexists. split_and!.
  - unfold load_params, noisefiles. apply load_params_loop_ok.
    rewrite Forall_forall in *. intros nf Hnf.
    rewrite elem_of_sorted in Hnf. by apply Hall.
  - done.
  - intros k. rewrite foldl_dict_update_is_Some, lookup_empty. split.
    + intros [[? [=]] | (d & (nf & Hnf & E)%elem_of_returns_of & Hk)].
      exists nf. rewrite elem_of_sorted in Hnf. split; [done | by exists d].
    + intros (nf & Hnf & d & E & Hk). right. exists d. split; [| done].
      apply elem_of_returns_of. exists nf. by rewrite elem_of_sorted.
  - intros k nf d Hnf E Hk Hmax.
    apply (foldl_dict_update_last _ _ _ nf);
      [| by apply elem_of_sorted | done | done |].
    + apply StronglySorted_merge_sort; apply _.
    + intros g Hg. rewrite elem_of_sorted in Hg. by apply Hmax.
Qed.
End loading_facts.

(** ** The model-assembly loops *)

Section assembly_facts.
Context {Psr : Type}.
Variable psr_name : Psr → string.
Variable psr_flags_pta : Psr → list string.

Lemma assemble_cell29_map s psrs models :
  assemble_cell29 psr_flags_pta s psrs models
  = models ++ map (λ p, (signals_cell29 psr_flags_pta s p, p)) psrs.
Proof.
  revert models. induction psrs as [|p psrs IH]; intros models; simpl.
  - by rewrite app_nil_r.
  - unfold signals_cell29 at 1. case_decide; rewrite IH, <- app_assoc; done.
Qed.

Lemma assemble_cell48_map s psrs models :
  assemble_cell48 psr_name psr_flags_pta s psrs models
  = models ++ map (λ p, (signals_cell48 psr_name psr_flags_pta s p, p)) psrs.
Proof.
  revert models. induction psrs as [|p psrs IH]; intros models; simpl.
  - by rewrite app_nil_r.
  - unfold signals_cell48 at 1.
    repeat case_decide; rewrite IH, <- app_assoc; done.
Qed.

Lemma elem_of_s_cell28 t : t ∈ s_cell28 ↔ t ∈ common_signals.
Proof. done. Qed.

Lemma elem_of_s_cell47 t : t ∈ s_cell47 ↔ t ∈ common_signals ∨ t = DmAnnual.
Proof.
  unfold s_cell47, signal_add. rewrite elem_of_app, elem_of_s_cell28.
  by rewrite list_elem_of_singleton.
Qed.

Lemma common_signals_spec t :
  t ∈ common_signals
  ↔ t ≠ EcorrKernelNoise ∧ t ≠ DmAnnual ∧ t ≠ DmExponentialDip.
Proof.
  unfold common_signals. split.
  - intros Ht. split_and!; intros ->;
      repeat (apply elem_of_cons in Ht as [Ht | Ht]; [done |]);
      by apply elem_of_nil in Ht.
  - intros (H1 & H2 & H3). destruct t; try done; by repeat constructor.
Qed.

Lemma signals_cell29_spec p :
  (EcorrKernelNoise ∈ signals_cell29 psr_flags_pta s_cell28 p
   ↔ "NANOGrav" ∈ psr_flags_pta p)
  ∧ (DmExponentialDip ∉ signals_cell29 psr_flags_pta s_cell28 p)
  ∧ (∀ t, t ∈ common_signals → t ∈ signals_cell29 psr_flags_pta s_cell28 p).
Proof.
  unfold signals_cell29, signal_add. case_decide as Hng; split_and!.
  - split; [done |]. intros _. apply elem_of_app. right. by left.
  - rewrite elem_of_app, list_elem_of_singleton, elem_of_s_cell28,
      common_signals_spec. by intros [(_ & _ & ?) | ?].
  - intros t Ht. apply elem_of_app. by left.
  - split; [| done]. rewrite elem_of_s_cell28, common_signals_spec.
    by intros (? & _).
  - rewrite elem_of_s_cell28, common_signals_spec. by intros (_ & _ & ?).
  - done.
Qed.

Lemma signals_cell48_spec p :
  (EcorrKernelNoise ∈ signals_cell48 psr_name psr_flags_pta s_cell47 p
   ↔ "NANOGrav" ∈ psr_flags_pta p)
  ∧ (DmExponentialDip ∈ signals_cell48 psr_name psr_flags_pta s_cell47 p
     ↔ "NANOGrav" ∈ psr_flags_pta p ∧ psr_name p = "J1713+0747")
  ∧ (∀ t, t ∈ common_signals →
          t ∈ signals_cell48 psr_name psr_flags_pta s_cell47 p)
  ∧ DmAnnual ∈ signals_cell48 psr_name psr_flags_pta s_cell47 p.
Proof.
  assert (∀ t, t ∈ common_signals → t ∈ s_cell47) as Hcommon
    by (intros t Ht; apply elem_of_s_cell47; by left).
  assert (DmAnnual ∈ s_cell47) as Hannual
    by (apply elem_of_s_cell47; by right).
  assert (EcorrKernelNoise ∉ s_cell47) as Hec.
  { rewrite elem_of_s_cell47, common_signals_spec. by intros [(? & _) | ?]. }
  assert (DmExponentialDip ∉ s_cell47) as Hdip.
  { rewrite elem_of_s_cell47, common_signals_spec. by intros [(_ & _ & ?) | ?]. }
  unfold signals_cell48, signal_add. repeat case_decide; split_and!;
    rewrite ?elem_of_app, ?list_elem_of_singleton; try tauto;
    try (intros t Ht; specialize (Hcommon t Ht);
         rewrite ?elem_of_app; tauto).
  split; [| by intros [_ ?]]. by intros [? | ?].
Qed.

(** C10: each loop builds one model per pulsar, in order.  In both, the
    model of a pulsar has the [EcorrKernelNoise] term exactly if
    ['NANOGrav'] is among its ['pta'] flags.  In the second, it has the DM
    exponential dip exactly if the pulsar is a NANOGrav pulsar named
    ['J1713+0747'] (the first loop never adds it).  Every other term ([ef],
    [eq], [rn], [dm_gp], [tm], [eph], [gw], and in the second loop the
    annual DM term) is in the model of every pulsar. *)
Theorem models_signals (psrs : list Psr) :
  snd <$> models_first psr_flags_pta psrs = psrs
  ∧ snd <$> models_second psr_name psr_flags_pta psrs = psrs
  ∧ (∀ sigs p, (sigs, p) ∈ models_first psr_flags_pta psrs →
       (EcorrKernelNoise ∈ sigs ↔ "NANOGrav" ∈ psr_flags_pta p)
       ∧ (DmExponentialDip ∉ sigs)
       ∧ (∀ t, t ∈ common_signals → t ∈ sigs))
  ∧ (∀ sigs p, (sigs, p) ∈ models_second psr_name psr_flags_pta psrs →
       (EcorrKernelNoise ∈ sigs ↔ "NANOGrav" ∈ psr_flags_pta p)
       ∧ (DmExponentialDip ∈ sigs
          ↔ "NANOGrav" ∈ psr_flags_pta p ∧ psr_name p = "J1713+0747")
       ∧ (∀ t, t ∈ common_signals → t ∈ sigs)
       ∧ DmAnnual ∈ sigs).
Proof.
  unfold models_first, models_second.
  rewrite assemble_cell29_map, assemble_cell48_map, !app_nil_l.
  split_and!.
  - rewrite <- list_fmap_compose. by apply list_fmap_id.
  - rewrite <- list_fmap_compose. by apply list_fmap_id.
  - intros sigs p (q & [= -> ->] & _)%list_elem_of_fmap.
    apply signals_cell29_spec.
  - intros sigs p (q & [= -> ->] & _)%list_elem_of_fmap.
    apply signals_cell48_spec.
Qed.
End assembly_facts.

(** ** From the chain to the upper limit *)

Section postprocessing_facts.
Context {F : Type} `{NpFloat F}.
Variable np_percentile : list F → F → F.

(** [int(0.25 * n)] is [floor(n / 4)]. *)
Lemma burn_spec (chain : ndarray2 F) : burn chain = length (rows chain) `div` 4.
Proof.
  unfold burn, py_int. simpl.
  rewrite Z.quot_div_nonneg by lia.
  replace (1 * Z.of_nat (length (rows chain)))%Z
    with (Z.of_nat (length (rows chain))) by lia.
  change (Z.pos (4 * 1)) with (Z.of_nat 4).
  by rewrite <- Nat2Z.inj_div, Nat2Z.id.
Qed.

Lemma length_burn_in (chain : ndarray2 F) :
  length (burn_in chain) = length (rows chain) `div` 4.
Proof.
  unfold burn_in. rewrite length_take.
  pose proof (Nat.Div0.div_le_upper_bound (length (rows chain)) 4
                (length (rows chain))).
  lia.
Qed.

Lemma py_index_nonneg (n c : nat) : c < n → py_index n (Z.of_nat c) = Some c.
Proof.
  intros Hc. unfold py_index. rewrite decide_True by lia. by rewrite Nat2Z.id.
Qed.

Lemma py_index_from_end (n k : nat) :
  0 < k ≤ n → py_index n (- Z.of_nat k) = Some (n - k).
Proof.
  intros Hk. unfold py_index.
  rewrite decide_False by lia. rewrite decide_True by lia.
  f_equal. lia.
Qed.

Lemma mapM_lookup_column (c : nat) (l : list (list F)) :
  Forall (λ r, c < length r) l →
  mapM (λ r : list F, r !! c) l = Some (omap (λ r : list F, r !! c) l).
Proof.
  induction 1 as [|r l Hr _ IH]; [done |].
  destruct (lookup_lt_is_Some_2 r c Hr) as [x Hx].
  simpl. rewrite Hx. simpl. rewrite IH. done.
Qed.

(** In a well-shaped chain, a column inside the second axis can be read
    off every row after the burn-in. *)
Lemma np_rows_from_col_spec (chain : ndarray2 F) (j : Z) (c : nat) :
  well_shaped chain → py_index (ncols chain) j = Some c → c < ncols chain →
  np_rows_from_col chain (burn chain) j = Some (post_burn_in_samples chain c).
Proof.
  intros Hws Hj Hc. unfold np_rows_from_col, post_burn_in_samples.
  rewrite Hj. simpl. rewrite burn_spec, length_burn_in.
  apply mapM_lookup_column.
  apply Forall_drop. unfold well_shaped in Hws.
  eapply Forall_impl; [exact Hws |]. simpl. intros r ->. done.
Qed.

Lemma py_list_index_first (name : string) (pars : list string) (ind : nat) :
  pars !! ind = Some name →
  (∀ j, j < ind → pars !! j ≠ Some name) →
  py_list_index name pars = Some ind.
Proof.
  intros Hind Hfirst. unfold py_list_index.
  assert (list_find (λ x, x = name) pars = Some (ind, name)) as ->; [| done].
  apply list_find_Some. split_and!; [done | done |].
  intros j y Hy Hj ->. by apply (Hfirst j).
Qed.

(** C6: for a chain of [n] rows the burn-in is the first [floor(0.25 * n)]
    rows, and the reported 95% upper limit is 10 raised to the 95th
    percentile of the post-burn-in samples of the GW amplitude column: the
    fifth column from the end in the verbose version, the column at the
    position of ['log10_A_gw'] in [pars] in the [model_utils] version. *)
Theorem upper_limit_postprocessing (chain : ndarray2 F) (pars : list string)
    (ind : nat) :
  well_shaped chain →
  burn chain = length (rows chain) `div` 4
  ∧ take (burn chain) (rows chain) = burn_in chain
  ∧ (5 ≤ ncols chain →
     upper np_percentile chain
     = Some (upper_limit_95 np_percentile chain (ncols chain - 5)))
  ∧ (pars !! ind = Some "log10_A_gw" →
     (∀ j, j < ind → pars !! j ≠ Some "log10_A_gw") →
     ind < ncols chain →
     upper_model_utils np_percentile chain pars
     = Some (upper_limit_95 np_percentile chain ind)).
Proof.
  intros Hws. split_and!.
  - apply burn_spec.
  - by rewrite burn_spec.
  - intros Hcols. unfold upper.
    rewrite (np_rows_from_col_spec chain (-5) (ncols chain - 5));
      [done | done | | lia].
    by apply (py_index_from_end (ncols chain) 5); lia.
  - intros Hind Hfirst Hcols. unfold upper_model_utils.
    rewrite (py_list_index_first _ _ ind) by done. simpl.
    rewrite (np_rows_from_col_spec chain (Z.of_nat ind) ind);
      [done | done | by apply py_index_nonneg | done].
Qed.
End postprocessing_facts.

(** ** The embedding on the sample inputs *)

Section samples.
Local Open Scope R_scope.

Example psr_of_path_sample :
  psr_of_path "./partim_filtered_ppta_ng//J1713+0747.IPTADR2.par" = "J1713+0747".
Proof. reflexivity. Qed.

Example parfiles_sample :
  parfiles ["d/J9999+0000.par"; "d/J1713+0747.par"; "d/J0030+0451.par"]
  = ["d/J0030+0451.par"; "d/J1713+0747.par"].
Proof. vm_compute. reflexivity. Qed.

Example models_second_sample :
  models_second fst snd sample_psrs
  = [ (s_cell47 ++ [EcorrKernelNoise; DmExponentialDip],
       ("J1713+0747", ["NANOGrav"; "NANOGrav"; "PPTA"]));
      (s_cell47, ("J0437-4715", ["PPTA"])) ].
Proof. vm_compute. reflexivity. Qed.

Example burn_sample : burn sample_chain = 2%nat.
Proof. reflexivity. Qed.

Example chrom_exp_decay_shapes :
  chrom_exp_decay [0; 86400] [1400; 800; 700] (-7) 54000 1.7 2 = None.
Proof. reflexivity. Qed.

(** Only the first two par/tim pairs are loaded; warnings do not stop the
    loop, an exception does. *)
Example load_psrs_sample :
  load_psrs sample_Pulsar
    ["d/J0030+0451.par"; "d/J1713+0747.par"; "d/J0437-4715.par"]
    ["d/J0030+0451.tim"; "d/J1713+0747.tim"; "d/J0437-4715.tim"]
  = Ok (["J0030+0451"; "J1713+0747"],
        ["WARNING: Could not find pulsar distance";
         "WARNING: Could not find pulsar distance"]).
Proof. reflexivity. Qed.

Example load_psrs_sample_raise :
  load_psrs sample_Pulsar
    ["d/J0030+0451.par"; "d/J0437-4715.par"]
    ["d/J0030+0451.tim"; "d/J0437-4715.tim"]
  = Raise "IOError".
Proof. reflexivity. Qed.



Lemma params_last_file_wins_witness :
  ∃ params,
    load_params sample_json_load ["noise/b.json"; "noise/a.json"] = Ok params
    ∧ params !! "efac" = Some 2%Z.
Proof.
  destruct (params_last_file_wins sample_json_load
              ["noise/b.json"; "noise/a.json"])
    as (params & Hload & _ & _ & Hlast).
  - repeat constructor; eexists; reflexivity.
  - exists params. split; [exact Hload |].
    rewrite (Hlast "efac" "noise/b.json"
               (<[ "efac" := 2%Z ]> {[ "equad" := 3%Z ]})).
    + reflexivity.
    + apply elem_of_cons. by left.
    + reflexivity.
    + by eexists.
    + intros g Hg _. apply elem_of_cons in Hg as [-> | Hg]; [done |].
      apply list_elem_of_singleton in Hg as ->. done.
Defined.

Lemma upper_limit_postprocessing_witness :
  burn sample_chain = 2%nat
  ∧ upper sample_percentile sample_chain
    = Some (upper_limit_95 sample_percentile sample_chain 0)
  ∧ upper_model_utils sample_percentile sample_chain ["log10_A_gw"]
    = Some (upper_limit_95 sample_percentile sample_chain 0).
Proof.
  destruct (upper_limit_postprocessing sample_percentile sample_chain
              ["log10_A_gw"] 0)
    as (Hburn & _ & Hupper & Hul).
  - repeat constructor.
  - split_and!.
    + exact Hburn.
    + apply Hupper. simpl. lia.
    + apply Hul; [reflexivity | intros j Hj; lia | simpl; lia].
Defined.
End samples.

(** * Further properties of the notebook's code *)

(** ** Shapes of the waveforms *)

Section shape_facts.
Context {F : Type} `{NpFloat F}.

Lemma np_binop_None (op : F → F → F) (a b : list F) :
  np_binop op a b = None
  ↔ length a ≠ length b ∧ length a ≠ 1 ∧ length b ≠ 1.
Proof.
  unfold np_binop. case_decide as Hl.
  - split; [done | by intros [? _]].
  - destruct a as [|x [|x' a]], b as [|y [|y' b]]; simpl in *;
      split; try done; try (intros (_ & ? & ?); done).
Qed.

Lemma np_binop_length (op : F → F → F) (a b r : list F) :
  np_binop op a b = Some r →
  length r = if decide (length a = 1) then length b else length a.
Proof.
  unfold np_binop. case_decide as Hl.
  - intros [= <-]. rewrite length_zip_with.
    case_decide; lia.
  - destruct a as [|x [|x' a]], b as [|y [|y' b]]; simpl in *;
      intros [= <-]; try done; simpl; by rewrite ?length_map.
Qed.

(** X1: Both waveform functions raise exactly when [toas] and [freqs] have
    different lengths neither of which is one; otherwise the result is as
    long as [toas], or as [freqs] when [toas] has a single entry. *)
Theorem waveform_shapes (fyr : F) (toas freqs : list F) (A t0 lt phase idx : F) :
  (chrom_exp_decay toas freqs A t0 lt idx = None
   ↔ length toas ≠ length freqs ∧ length toas ≠ 1 ∧ length freqs ≠ 1)
  ∧ (chrom_yearly_sinusoid fyr toas freqs A phase idx = None
     ↔ length toas ≠ length freqs ∧ length toas ≠ 1 ∧ length freqs ≠ 1)
  ∧ (∀ wf, chrom_exp_decay toas freqs A t0 lt idx = Some wf
           ∨ chrom_yearly_sinusoid fyr toas freqs A phase idx = Some wf →
       length wf
       = if decide (length toas = 1) then length freqs else length toas).
Proof.
  rewrite chrom_exp_decay_fused, chrom_yearly_sinusoid_fused. split_and!.
  - apply np_binop_None.
  - apply np_binop_None.
  - intros wf [Hwf | Hwf]; by apply np_binop_length in Hwf.
Qed.
End shape_facts.

(** ** The waveforms over the reals: reference frequency, dip and bound *)

Section waveform_lookup.
Context {F : Type} `{NpFloat F}.

Lemma chrom_exp_decay_lookup (toas freqs : list F) (A t0 lt idx : F) i t f :
  length toas = length freqs → toas !! i = Some t → freqs !! i = Some f →
  ∃ wf, chrom_exp_decay toas freqs A t0 lt idx = Some wf
        ∧ wf !! i = Some (exp_decay_closed_form A t0 lt idx t f).
Proof.
  intros Hl Ht Hf. eexists. split.
  - rewrite chrom_exp_decay_fused. by apply np_binop_same_length.
  - by rewrite lookup_zip_with, Ht, Hf.
Qed.

Lemma chrom_yearly_sinusoid_lookup (fyr : F) (toas freqs : list F)
    (A phase idx : F) i t f :
  length toas = length freqs → toas !! i = Some t → freqs !! i = Some f →
  ∃ wf, chrom_yearly_sinusoid fyr toas freqs A phase idx = Some wf
        ∧ wf !! i = Some (yearly_sinusoid_closed_form fyr A phase idx t f).
Proof.
  intros Hl Ht Hf. eexists. split.
  - rewrite chrom_yearly_sinusoid_fused. by apply np_binop_same_length.
  - by rewrite lookup_zip_with, Ht, Hf.
Qed.

Lemma np_binop_const_r (g : F → F → F) (a b : list F) (c : F) :
  Forall (λ y, y = c) b → np_binop g a b = np_binop (λ x _, g x c) a b.
Proof.
  intros Hb.
  assert (b = map (λ _, c) b) as Hmap.
  { induction Hb as [|y b' Hy _ IH]; simpl; [done | by rewrite <- IH, Hy]. }
  rewrite Hmap at 1. rewrite <- (map_id a) at 1. by rewrite np_binop_map.
Qed.
End waveform_lookup.

Section real_waveform_facts.
Local Open Scope R_scope.

Lemma Rpower_1_l (y : R) : Rpower 1 y = 1.
Proof. unfold Rpower. by rewrite ln_1, Rmult_0_r, exp_0. Qed.

(** The chromatic factor is 1 at 1400 MHz, whatever the index. *)
Lemma chromatic_factor_reference (idx : R) : Rpower (1400 / 1400) idx = 1.
Proof. replace (1400 / 1400) with 1 by lra. apply Rpower_1_l. Qed.

(** X2: At the reference frequency of 1400 MHz the chromatic index has no
    effect: on an array of frequencies that are all 1400, both waveform
    functions return the same delays for any two values of [idx]. *)
Theorem waveforms_at_reference_frequency (fyr : R) (toas freqs : list R)
    (A t0 lt phase idx idx' : R) :
  Forall (λ f, f = 1400) freqs →
  chrom_exp_decay toas freqs A t0 lt idx
  = chrom_exp_decay toas freqs A t0 lt idx'
  ∧ chrom_yearly_sinusoid fyr toas freqs A phase idx
    = chrom_yearly_sinusoid fyr toas freqs A phase idx'.
Proof.
  intros Hf. rewrite !chrom_exp_decay_fused, !chrom_yearly_sinusoid_fused.
  rewrite (np_binop_const_r (exp_decay_closed_form A t0 lt idx) _ _ 1400),
    (np_binop_const_r (exp_decay_closed_form A t0 lt idx') _ _ 1400),
    (np_binop_const_r (yearly_sinusoid_closed_form fyr A phase idx) _ _ 1400),
    (np_binop_const_r (yearly_sinusoid_closed_form fyr A phase idx') _ _ 1400)
    by done.
  split; apply np_binop_ext; intros t f'.
  - unfold exp_decay_closed_form. simpl.
    by rewrite !chromatic_factor_reference.
  - unfold yearly_sinusoid_closed_form. simpl.
    by rewrite !chromatic_factor_reference.
Qed.

Lemma waveforms_at_reference_frequency_witness :
  chrom_exp_decay [0; 86400] [1400; 1400] (-7) 54000 1.7 2
  = chrom_exp_decay [0; 86400] [1400; 1400] (-7) 54000 1.7 4
  ∧ chrom_yearly_sinusoid (1 / 31557600) [0; 86400] [1400; 1400] (-7) 0 2
    = chrom_yearly_sinusoid (1 / 31557600) [0; 86400] [1400; 1400] (-7) 0 4.
Proof.
  apply (waveforms_at_reference_frequency (1 / 31557600) [0; 86400]
           [1400; 1400] (-7) 54000 1.7 0 2 4).
  repeat constructor.
Defined.

Lemma R_heaviside_nonneg (x : R) : 0 <= x → R_heaviside x 1 = 1.
Proof.
  intros Hx. unfold R_heaviside.
  destruct (Rlt_dec x 0); [lra |]. by destruct (Rlt_dec 0 x).
Qed.

(** From the dip epoch on, the delay is the decaying exponential. *)
Lemma exp_decay_closed_form_after (A t0 lt idx t f : R) :
  t0 * 86400 <= t →
  exp_decay_closed_form A t0 lt idx t f
  = - (Rpower 10 A * Rpower (1400 / f) idx)
    * exp (- (t - t0 * 86400) / (Rpower 10 lt * 86400)).
Proof.
  intros Ht. unfold exp_decay_closed_form, const_day. simpl.
  rewrite R_heaviside_nonneg by lra. lra.
Qed.

Lemma Rpower_pos (x y : R) : 0 < Rpower x y.
Proof. unfold Rpower. apply exp_pos. Qed.

Lemma decay_factor_mono (lt s1 s2 : R) :
  0 <= s1 <= s2 →
  0 < exp (- s2 / (Rpower 10 lt * 86400))
  ∧ exp (- s2 / (Rpower 10 lt * 86400)) <= exp (- s1 / (Rpower 10 lt * 86400))
  ∧ exp (- s1 / (Rpower 10 lt * 86400)) <= 1.
Proof.
  intros Hs. pose proof (Rpower_pos 10 lt) as Hp.
  assert (0 < / (Rpower 10 lt * 86400)) as Hinv
    by (apply Rinv_0_lt_compat; lra).
  split_and!.
  - apply exp_pos.
  - destruct (Req_dec s1 s2) as [-> | Hne]; [lra |].
    left. apply exp_increasing. unfold Rdiv. nra.
  - rewrite <- exp_0.
    destruct (Req_dec s1 0) as [-> | Hne].
    + right. f_equal. unfold Rdiv. lra.
    + left. apply exp_increasing. unfold Rdiv. nra.
Qed.

(** X3: From the dip epoch [t0 * 86400] on, the delay of [chrom_exp_decay] is a
    dip that recovers: at a positive radio frequency it is never
    below [-10^log10_Amp * (1400/f)^idx], never positive, and of two TOAs
    at the same frequency the later one has the smaller advance. *)
Theorem chrom_exp_decay_recovers (toas freqs : list R) (A t0 lt idx : R)
    (i j : nat) (ti tj f : R) :
  length toas = length freqs →
  toas !! i = Some ti → toas !! j = Some tj →
  freqs !! i = Some f → freqs !! j = Some f → 0 < f →
  t0 * 86400 <= ti <= tj →
  ∃ wf wi wj,
    chrom_exp_decay toas freqs A t0 lt idx = Some wf
    ∧ wf !! i = Some wi ∧ wf !! j = Some wj
    ∧ - (Rpower 10 A * Rpower (1400 / f) idx) <= wi <= wj ∧ wj <= 0.
Proof.
  intros Hl Hti Htj Hfi Hfj _ Ht.
  destruct (chrom_exp_decay_lookup toas freqs A t0 lt idx i ti f Hl Hti Hfi)
    as (wf & Hwf & Hi).
  destruct (chrom_exp_decay_lookup toas freqs A t0 lt idx j tj f Hl Htj Hfj)
    as (wf' & Hwf' & Hj).
  assert (wf' = wf) as -> by congruence.
  exists wf. do 2 eexists. split_and!; [done | exact Hi | exact Hj | | |];
    rewrite !exp_decay_closed_form_after by lra;
    assert (0 < Rpower 10 A * Rpower (1400 / f) idx)
      by (apply Rmult_lt_0_compat; apply Rpower_pos);
    pose proof (decay_factor_mono lt (ti - t0 * 86400) (tj - t0 * 86400)
                  ltac:(lra)) as (? & ? & ?);
    set (p := Rpower 10 A * Rpower (1400 / f) idx) in *;
    set (ei := exp (- (ti - t0 * 86400) / (Rpower 10 lt * 86400))) in *;
    set (ej := exp (- (tj - t0 * 86400) / (Rpower 10 lt * 86400))) in *;
    nra.
Qed.

Lemma chrom_exp_decay_recovers_witness :
  ∃ wf wi wj,
    chrom_exp_decay [54000 * 86400; 54001 * 86400] [1400; 1400]
      (-7) 54000 1.7 2 = Some wf
    ∧ wf !! 0%nat = Some wi ∧ wf !! 1%nat = Some wj
    ∧ - (Rpower 10 (-7) * Rpower (1400 / 1400) 2) <= wi <= wj ∧ wj <= 0.
Proof.
  apply (chrom_exp_decay_recovers [54000 * 86400; 54001 * 86400] [1400; 1400]
           (-7) 54000 1.7 2 0 1 (54000 * 86400) (54001 * 86400) 1400);
    try reflexivity; lra.
Defined.

(** X4: The delay of [chrom_yearly_sinusoid] never exceeds, in absolute value,
    the amplitude scaled to the radio frequency,
    [10^log10_Amp * (1400/f)^idx]. *)
Theorem chrom_yearly_sinusoid_bounded (fyr : R) (toas freqs : list R)
    (A phase idx : R) (i : nat) (t f : R) :
  length toas = length freqs →
  toas !! i = Some t → freqs !! i = Some f → 0 < f →
  ∃ wf w,
    chrom_yearly_sinusoid fyr toas freqs A phase idx = Some wf
    ∧ wf !! i = Some w
    ∧ Rabs w <= Rpower 10 A * Rpower (1400 / f) idx.
Proof.
  intros Hl Ht Hf _.
  destruct (chrom_yearly_sinusoid_lookup fyr toas freqs A phase idx i t f
              Hl Ht Hf) as (wf & Hwf & Hi).
  exists wf. eexists. split_and!; [done | exact Hi |].
  unfold yearly_sinusoid_closed_form. simpl.
  assert (0 < Rpower 10 A * Rpower (1400 / f) idx)
    by (apply Rmult_lt_0_compat; apply Rpower_pos).
  pose proof (SIN_bound (2 * PI * fyr * t + phase)) as [? ?].
  set (p := Rpower 10 A * Rpower (1400 / f) idx) in *.
  set (sn := sin (2 * PI * fyr * t + phase)) in *.
  replace (Rpower 10 A * sn * Rpower (1400 / f) idx) with (p * sn)
    by (unfold p; ring).
  apply Rabs_le. nra.
Qed.

Lemma chrom_yearly_sinusoid_bounded_witness :
  ∃ wf w,
    chrom_yearly_sinusoid (1 / 31557600) [0; 86400] [1400; 800] (-7) 0 2
    = Some wf
    ∧ wf !! 1%nat = Some w
    ∧ Rabs w <= Rpower 10 (-7) * Rpower (1400 / 800) 2.
Proof.
  apply (chrom_yearly_sinusoid_bounded (1 / 31557600) [0; 86400] [1400; 800]
           (-7) 0 2 1 86400 800); try reflexivity; lra.
Defined.
End real_waveform_facts.

(** ** Paths: the pulsar of a file, the order of the glob, the pairing *)

Section more_path_facts.
Implicit Types (s w x n d r : string) (c sep : ascii).

Lemma append_nil_l s : "" +:+ s = s.
Proof. reflexivity. Qed.

(** Splitting on either side of a separator splits the whole. *)
Lemma py_split_app sep s1 s2 :
  py_split sep (s1 +:+ String sep s2) = py_split sep s1 ++ py_split sep s2.
Proof.
  induction s1 as [|c s1 IH].
  - rewrite append_nil_l. simpl. by rewrite decide_True.
  - rewrite append_cons. simpl. rewrite IH. case_decide; [done |].
    by destruct (py_split_cons sep s1) as (w & ws & ->).
Qed.

Lemma py_split_no_occurrence sep s : ¬ occurs sep s → py_split sep s = [s].
Proof.
  induction s as [|c s IH]; intros Hs; simpl in *; [done |].
  rewrite decide_False by tauto. rewrite IH by tauto. done.
Qed.

Lemma last_py_split sep d b :
  (d = "" ∨ ∃ d', d = d' +:+ String sep "") → ¬ occurs sep b →
  last (py_split sep (d +:+ b)) = Some b.
Proof.
  intros [-> | (d' & ->)] Hb.
  - rewrite append_nil_l. by rewrite py_split_no_occurrence.
  - rewrite append_assoc. change (String sep "" +:+ b) with (String sep b).
    rewrite py_split_app, last_app, py_split_no_occurrence by done. done.
Qed.

Lemma head_py_split sep n r :
  ¬ occurs sep n → (r = "" ∨ ∃ r', r = String sep r') →
  head (py_split sep (n +:+ r)) = Some n.
Proof.
  intros Hn [-> | (r' & ->)].
  - by rewrite append_nil_r, py_split_no_occurrence.
  - by rewrite py_split_app, py_split_no_occurrence.
Qed.

Lemma psr_of_path_unique x n : basename_prefix x n → psr_of_path x = n.
Proof.
  intros (d & r & -> & Hd & Hnr & Hn & Hr). unfold psr_of_path.
  rewrite last_py_split by done. simpl.
  by rewrite head_py_split.
Qed.

(** X5: [x.split('/')[-1].split('.')[0]] is [n] exactly if [n] is the prefix,
    before the first ['.'], of the basename of [x]; in particular the
    pulsar of ["dir/NAME.ext"] is ["NAME"] when ["NAME"] is free of ['/']
    and ['.'] and the extension of ['/']. *)
Theorem psr_of_path_iff x n : psr_of_path x = n ↔ basename_prefix x n.
Proof.
  split.
  - intros <-. apply psr_of_path_spec.
  - apply psr_of_path_unique.
Qed.

Lemma psr_of_path_file d n ext :
  (d = "" ∨ ∃ d', d = d' +:+ "/") → ¬ occurs "/" n → ¬ occurs "." n →
  ¬ occurs "/" ext →
  psr_of_path (d +:+ n +:+ String "." ext) = n.
Proof.
  intros Hd Hn1 Hn2 Hext. apply psr_of_path_unique.
  exists d, (String "." ext). split_and!; [done | done | | done | by eauto].
  rewrite occurs_app. simpl. intros [? | [? | ?]]; done.
Qed.

Lemma filter_psrs_spec (files : list string) :
  (∀ x, x ∈ filter_psrs files →
        ∃ n, basename_prefix x n ∧ n ∈ psrlist ∧ is_Some (psrdict !! n))
  ∧ filter_psrs files `sublist_of` files
  ∧ (∀ x n, x ∈ files → basename_prefix x n → n ∈ psrlist →
            x ∈ filter_psrs files).
Proof.
  unfold filter_psrs. split_and!.
  - intros x [Hx _]%list_elem_of_filter. exists (psr_of_path x).
    split_and!; [apply psr_of_path_spec | done | by apply elem_of_psrlist].
  - apply sublist_filter.
  - intros x n Hx Hn Hp. apply list_elem_of_filter. split; [| done].
    by rewrite (psr_of_path_unique x n).
Qed.

(** C8: after the filter, every path of [parfiles] and of [timfiles] has a
    basename whose prefix before the first ['.'] is a key of [psrdict]
    (a member of [psrlist]); each filtered list is a sublist, in the same
    order, of the sorted glob result; and no path of the sorted glob
    result whose basename has a prefix, before its first ['.'], in
    [psrlist] is dropped.  The prefix is the one [basename_prefix]
    describes, not the value the filter computes. *)
Theorem parfiles_timfiles_filtered (glob_par glob_tim : list string) :
  ((∀ x, x ∈ parfiles glob_par →
         ∃ n, basename_prefix x n ∧ n ∈ psrlist ∧ is_Some (psrdict !! n))
   ∧ parfiles glob_par `sublist_of` sorted glob_par
   ∧ (∀ x n, x ∈ sorted glob_par → basename_prefix x n → n ∈ psrlist →
             x ∈ parfiles glob_par))
  ∧ ((∀ x, x ∈ timfiles glob_tim →
           ∃ n, basename_prefix x n ∧ n ∈ psrlist ∧ is_Some (psrdict !! n))
     ∧ timfiles glob_tim `sublist_of` sorted glob_tim
     ∧ (∀ x n, x ∈ sorted glob_tim → basename_prefix x n → n ∈ psrlist →
               x ∈ timfiles glob_tim)).
Proof. split; apply filter_psrs_spec. Qed.

(** *** The order in which [glob] lists the directory does not matter *)

Lemma sorted_Permutation (l1 l2 : list string) :
  l1 ≡ₚ l2 → sorted l1 = sorted l2.
Proof.
  intros Hp. unfold sorted.
  apply (Sorted_unique String.le).
  - apply Sorted_merge_sort; apply _.
  - apply Sorted_merge_sort; apply _.
  - by rewrite !merge_sort_Permutation.
Qed.
End more_path_facts.

Section glob_order.
Context {Exn V : Type}.
Variable json_load : string → result Exn (gmap string V).

(** X6: [glob.glob] returns the directory entries in arbitrary order.  Thanks
    to [sorted], neither [parfiles], [timfiles] nor the noise dictionary
    [params] depends on that order. *)
Theorem glob_order_irrelevant (glob_par glob_par' glob_tim glob_tim'
    glob_noise glob_noise' : list string) :
  glob_par ≡ₚ glob_par' → glob_tim ≡ₚ glob_tim' → glob_noise ≡ₚ glob_noise' →
  parfiles glob_par = parfiles glob_par'
  ∧ timfiles glob_tim = timfiles glob_tim'
  ∧ load_params json_load glob_noise = load_params json_load glob_noise'.
Proof.
  intros Hp Ht Hn. unfold parfiles, timfiles, load_params, noisefiles.
  by rewrite (sorted_Permutation _ _ Hp), (sorted_Permutation _ _ Ht),
    (sorted_Permutation _ _ Hn).
Qed.
End glob_order.

(** *** Par and tim files are paired by pulsar *)

Section pairing_facts.
Implicit Types (s a b d n ext : string) (c : ascii).

Lemma ascii_compare_refl c : Ascii.compare c c = Eq.
Proof. unfold Ascii.compare. apply N.compare_refl. Qed.

Lemma string_compare_refl s : String.compare s s = Eq.
Proof.
  induction s as [|c s IH]; simpl; [done |]. by rewrite ascii_compare_refl.
Qed.

Lemma string_compare_app_l d a b :
  String.compare (d +:+ a) (d +:+ b) = String.compare a b.
Proof.
  induction d as [|c d IH]; [done |].
  rewrite !append_cons. simpl. by rewrite ascii_compare_refl.
Qed.

Lemma string_compare_app_r a b s :
  String.length a = String.length b →
  String.compare (a +:+ s) (b +:+ s) = String.compare a b.
Proof.
  revert b. induction a as [|c a IH]; intros [|c' b] Hl;
    try discriminate Hl.
  - rewrite !append_nil_l. apply string_compare_refl.
  - injection Hl as Hl. rewrite !append_cons. simpl. by rewrite IH.
Qed.

(** Files of one directory and extension are ordered as their pulsars,
    when the names have one length. *)
Lemma data_file_le d ext a b :
  String.length a = String.length b →
  String.le a b → String.le (data_file d ext a) (data_file d ext b).
Proof.
  intros Hl. unfold String.le, String.leb, data_file.
  by rewrite string_compare_app_l, string_compare_app_r.
Qed.

Lemma StronglySorted_fmap_on {A B} (R : relation A) (R' : relation B)
    (P : A → Prop) (f : A → B) (l : list A) :
  (∀ x y, P x → P y → R x y → R' (f x) (f y)) →
  Forall P l → StronglySorted R l → StronglySorted R' (f <$> l).
Proof.
  intros Hf HP Hs. induction Hs as [|x l Hl IH Hx]; simpl; [constructor |].
  inversion_clear HP as [|?? Px Pl]. constructor; [by apply IH |].
  rewrite Forall_fmap. rewrite Forall_forall in Hx, Pl |- *.
  intros y Hy. simpl. apply Hf; auto.
Qed.

Lemma sorted_data_files d ext len (names : list string) :
  Forall (psr_name_of_length len) names →
  sorted (data_file d ext <$> names) = data_file d ext <$> sorted names.
Proof.
  intros Hnames. unfold sorted. apply (Sorted_unique String.le).
  - apply Sorted_merge_sort; apply _.
  - apply StronglySorted_Sorted.
    apply (StronglySorted_fmap_on String.le String.le (psr_name_of_length len)).
    + intros a b [Ha _] [Hb _]. apply data_file_le. congruence.
    + by rewrite merge_sort_Permutation.
    + apply StronglySorted_merge_sort; apply _.
  - by rewrite !merge_sort_Permutation.
Qed.

Lemma psr_of_data_file d ext len n :
  (d = "" ∨ ∃ d', d = d' +:+ "/") → ¬ occurs "/" ext →
  psr_name_of_length len n → psr_of_path (data_file d ext n) = n.
Proof. intros Hd Hext (_ & Hn1 & Hn2). by apply psr_of_path_file. Qed.

Lemma filter_psrs_data_files d ext len (names : list string) :
  (d = "" ∨ ∃ d', d = d' +:+ "/") → ¬ occurs "/" ext →
  Forall (psr_name_of_length len) names →
  psr_of_path <$> filter_psrs (data_file d ext <$> names)
  = filter (λ n, n ∈ psrlist) names.
Proof.
  intros Hd Hext Hnames. unfold filter_psrs.
  induction Hnames as [|n names Hn _ IH]; [done |].
  rewrite fmap_cons, !filter_cons.
  rewrite (psr_of_data_file d ext len n) by done.
  case_decide; [rewrite fmap_cons, IH | by rewrite IH].
  by rewrite (psr_of_data_file d ext len n).
Qed.

(** X7: If the data directory holds one par file and one tim file for each of
    a list of pulsar names of one length, then [parfiles] and [timfiles]
    list the same pulsars in the same order, and every pair that the
    loading loop hands to [Pulsar] is the par file and the tim file of one
    pulsar. *)
Theorem par_tim_pairs_match (d ext_par ext_tim : string) (len : nat)
    (names glob_par glob_tim : list string) :
  (d = "" ∨ ∃ d', d = d' +:+ "/") →
  ¬ occurs "/" ext_par → ¬ occurs "/" ext_tim →
  Forall (psr_name_of_length len) names →
  glob_par ≡ₚ data_file d ext_par <$> names →
  glob_tim ≡ₚ data_file d ext_tim <$> names →
  psr_of_path <$> parfiles glob_par = psr_of_path <$> timfiles glob_tim
  ∧ (∀ p t, (p, t) ∈ zip (take 2 (parfiles glob_par))
                         (take 2 (timfiles glob_tim)) →
            psr_of_path p = psr_of_path t).
Proof.
  intros Hd Hp Ht Hnames Hgp Hgt.
  assert (psr_of_path <$> parfiles glob_par
          = psr_of_path <$> timfiles glob_tim) as Heq.
  { unfold parfiles, timfiles.
    rewrite (sorted_Permutation _ _ Hgp), (sorted_Permutation _ _ Hgt).
    rewrite !(sorted_data_files _ _ len) by done.
    assert (Forall (psr_name_of_length len) (sorted names)) as Hs
      by (unfold sorted; by rewrite merge_sort_Permutation).
    by rewrite !(filter_psrs_data_files _ _ len). }
  split; [done |].
  intros p t (i & p' & t' & Hpt & Hi & Hj)%elem_of_lookup_zip_with.
  injection Hpt as Ep Et. subst p' t'.
  apply lookup_take_Some in Hi as [Hi _].
  apply lookup_take_Some in Hj as [Hj _].
  assert ((psr_of_path <$> parfiles glob_par) !! i = Some (psr_of_path p)) as E1
    by (by rewrite list_lookup_fmap, Hi).
  assert ((psr_of_path <$> timfiles glob_tim) !! i = Some (psr_of_path t)) as E2
    by (by rewrite list_lookup_fmap, Hj).
  congruence.
Qed.
End pairing_facts.

(** ** Loading: how many pulsars, and where the noise values come from *)

Section more_loading_facts.
Context {Exn Psr V : Type}.
Variable Pulsar : string → string → result Exn (Psr * list string).
Variable json_load : string → result Exn (gmap string V).

Lemma load_psrs_loop_returned pairs psrs out res :
  load_psrs_loop Pulsar pairs psrs out = Ok res →
  Forall (λ pt : string * string, returned (Pulsar pt.1 pt.2)) pairs.
Proof.
  revert psrs out. induction pairs as [|[p t] pairs IH]; intros psrs out Hres;
    [constructor |].
  simpl in Hres. destruct (Pulsar p t) as [r|] eqn:E; [| done].
  constructor; [by exists r | by eapply IH].
Qed.

(** X9: The tutorial loads at most two pulsars: when the loading loop
    finishes, it has loaded as many pulsars as there are par/tim pairs
    among the first two of each list, however many files passed the
    filter. *)
Theorem load_psrs_at_most_two (parfiles timfiles : list string)
    (psrs : list Psr) (out : list string) :
  load_psrs Pulsar parfiles timfiles = Ok (psrs, out) →
  length psrs = 2 `min` (length parfiles `min` length timfiles).
Proof.
  intros Hres. unfold load_psrs in Hres.
  pose proof (load_psrs_loop_returned _ _ _ _ Hres) as Hall.
  destruct (load_psrs_loop_ok Pulsar _ [] [] Hall) as [Hok Hlen].
  rewrite Hok in Hres. injection Hres as <- _.
  rewrite length_fmap, Hlen, length_zip_with, !length_take. lia.
Qed.

(** X10: What lies behind the second par file and the second tim file is never
    read: the outcome of the loading loop is the same for any two
    constructors that agree on the first two pairs. *)
Theorem load_psrs_reads_two_pairs
    (Pulsar2 : string → string → result Exn (Psr * list string))
    (parfiles timfiles : list string) :
  (∀ p t, (p, t) ∈ zip (take 2 parfiles) (take 2 timfiles) →
          Pulsar p t = Pulsar2 p t) →
  load_psrs Pulsar parfiles timfiles = load_psrs Pulsar2 parfiles timfiles.
Proof.
  unfold load_psrs. generalize (zip (take 2 parfiles) (take 2 timfiles)).
  intros pairs. generalize (@nil Psr) (@nil string).
  induction pairs as [|[p t] pairs IH]; intros psrs out Hagree; [done |].
  simpl. rewrite <- (Hagree p t) by (by left).
  destruct (Pulsar p t) as [r|e]; simpl; [| done].
  apply IH. intros p' t' Hin. apply Hagree. by right.
Qed.

Lemma foldl_dict_update_lookup_Some (ds : list (gmap string V)) params k v :
  foldl dict_update params ds !! k = Some v →
  params !! k = Some v ∨ ∃ d, d ∈ ds ∧ d !! k = Some v.
Proof.
  revert params. induction ds as [|d ds IH]; intros params Hk; simpl in *;
    [by left |].
  apply IH in Hk as [Hk | (d' & Hd' & Hk)].
  - unfold dict_update in Hk. apply lookup_union_Some_raw in Hk as [Hk | [_ Hk]].
    + right. exists d. split; [by left | done].
    + by left.
  - right. exists d'. split; [by right | done].
Qed.

(** X11: Every entry of [params] was read from a noise file: if the loop
    finishes with [params] and [params[k]] is [v], then some globbed noise
    file parses to a dictionary in which [k] is [v]. *)
Theorem params_values_from_files (glob_noise : list string)
    (params : gmap string V) (k : string) (v : V) :
  load_params json_load glob_noise = Ok params →
  params !! k = Some v →
  ∃ nf d, nf ∈ glob_noise ∧ json_load nf = Ok d ∧ d !! k = Some v.
Proof.
  unfold load_params, noisefiles. intros Hload Hk.
  assert (Forall (λ nf, returned (json_load nf)) (sorted glob_noise)) as Hall.
  { clear Hk. revert Hload. generalize (∅ : gmap string V).
    induction (sorted glob_noise) as [|nf l IH]; intros acc Hload;
      [constructor |].
    simpl in Hload. destruct (json_load nf) as [d|] eqn:E; [| done].
    constructor; [by exists d | by eapply IH]. }
  rewrite (load_params_loop_ok json_load _ _ Hall) in Hload.
  injection Hload as <-.
  apply foldl_dict_update_lookup_Some in Hk as [Hk | (d & Hd & Hk)].
  - by rewrite lookup_empty in Hk.
  - apply elem_of_returns_of in Hd as (nf & Hnf & E).
    exists nf, d. by rewrite elem_of_sorted in Hnf.
Qed.
End more_loading_facts.

(** ** The two assemblies compared *)

Section more_assembly_facts.
Context {Psr : Type}.
Variable psr_name : Psr → string.
Variable psr_flags_pta : Psr → list string.

(** X12: The second assembly only adds to the first: for every pulsar, position
    by position, the model of cell 48 has every signal of the model of
    cell 29, and what it has in addition is the annual DM term or the DM
    exponential dip. *)
Theorem second_assembly_extends_first (psrs : list Psr) (i : nat)
    (sigs1 sigs2 : list signal) (p1 p2 : Psr) :
  models_first psr_flags_pta psrs !! i = Some (sigs1, p1) →
  models_second psr_name psr_flags_pta psrs !! i = Some (sigs2, p2) →
  p1 = p2
  ∧ (∀ t, t ∈ sigs1 → t ∈ sigs2)
  ∧ (∀ t, t ∈ sigs2 → t ∈ sigs1 ∨ t = DmAnnual ∨ t = DmExponentialDip).
Proof.
  unfold models_first, models_second.
  rewrite assemble_cell29_map, assemble_cell48_map, !app_nil_l.
  rewrite !list_lookup_fmap.
  destruct (psrs !! i) as [p|]; [| done]. simpl.
  intros [= <- <-] [= <- <-]. split; [done |].
  unfold signals_cell29, signals_cell48, s_cell47, signal_add.
  repeat case_decide; split; intros t;
    rewrite ?elem_of_app, ?list_elem_of_singleton; tauto.
Qed.
End more_assembly_facts.

(** ** The chain: errors, sample counts, the two readings of the column *)

Section more_postprocessing_facts.
Context {F : Type} `{NpFloat F}.
Variable np_percentile : list F → F → F.

Lemma py_index_lt (n : nat) (j : Z) (c : nat) : py_index n j = Some c → c < n.
Proof.
  unfold py_index. repeat case_decide; intros [= <-]; lia.
Qed.

Lemma py_index_None (n : nat) (j : Z) :
  py_index n j = None ↔ (j < - Z.of_nat n ∨ Z.of_nat n ≤ j)%Z.
Proof.
  unfold py_index. repeat case_decide; split; try done; lia.
Qed.

(** In a well-shaped chain, reading a column after the burn-in fails only
    on the index. *)
Lemma np_rows_from_col_None (chain : ndarray2 F) (j : Z) :
  well_shaped chain →
  np_rows_from_col chain (burn chain) j = None ↔ py_index (ncols chain) j = None.
Proof.
  intros Hws. destruct (py_index (ncols chain) j) as [c|] eqn:Hj.
  - rewrite (np_rows_from_col_spec chain j c) by eauto using py_index_lt.
    done.
  - unfold np_rows_from_col. by rewrite Hj.
Qed.

Lemma py_list_index_Some (name : string) (pars : list string) (ind : nat) :
  py_list_index name pars = Some ind
  ↔ pars !! ind = Some name ∧ ∀ j, j < ind → pars !! j ≠ Some name.
Proof.
  split; [| by intros []; apply py_list_index_first].
  unfold py_list_index.
  destruct (list_find _ pars) as [[i x]|] eqn:E; [| done].
  simpl. intros [= ->]. apply list_find_Some in E as (Hi & -> & Hfirst).
  split; [done |]. intros j Hj Hlook. by apply (Hfirst j name).
Qed.

Lemma py_list_index_None (name : string) (pars : list string) :
  py_list_index name pars = None ↔ name ∉ pars.
Proof.
  unfold py_list_index.
  destruct (list_find _ pars) as [[i x]|] eqn:E; simpl.
  - apply list_find_Some in E as (Hi & -> & _). split; [done |].
    intros []. by eapply list_elem_of_lookup_2.
  - split; [| done]. intros _ Hin.
    rewrite list_find_None, Forall_forall in E. by apply (E name).
Qed.

(** On a matrix and a list of names, the verbose upper limit fails (an
    [IndexError]) exactly if the matrix has fewer than five columns, and
    the [model_utils] one (a [ValueError] or an [IndexError]) exactly if
    ['log10_A_gw'] is not among the first [ncols] names. *)
Lemma upper_limit_errors_2d (chain : ndarray2 F) (pars : list string) :
  well_shaped chain →
  (upper np_percentile chain = None ↔ ncols chain < 5)
  ∧ (upper_model_utils np_percentile chain pars = None
     ↔ "log10_A_gw" ∉ take (ncols chain) pars).
Proof.
  intros Hws. split.
  - unfold upper.
    destruct (np_rows_from_col chain (burn chain) (-5)) as [col|] eqn:E; simpl.
    + split; [done |]. intros Hc.
      assert (np_rows_from_col chain (burn chain) (-5) = None) as E'; [| congruence].
      apply np_rows_from_col_None; [done |]. apply py_index_None. lia.
    + split; [| done]. intros _.
      apply np_rows_from_col_None, py_index_None in E; [lia | done].
  - unfold upper_model_utils. rewrite elem_of_take.
    destruct (py_list_index "log10_A_gw" pars) as [ind|] eqn:Ei; simpl.
    + apply py_list_index_Some in Ei as [Hind Hfirst].
      destruct (np_rows_from_col chain (burn chain) (Z.of_nat ind))
        as [col|] eqn:E; simpl.
      * split; [done |]. intros Hnot. exfalso. apply Hnot.
        exists ind. split; [done |].
        destruct (decide (ind < ncols chain)) as [| Hge]; [done |].
        assert (np_rows_from_col chain (burn chain) (Z.of_nat ind) = None)
          as E'; [| congruence].
        apply np_rows_from_col_None; [done |]. apply py_index_None. lia.
      * split; [| done]. intros _ (j & Hj & Hlt).
        apply np_rows_from_col_None, py_index_None in E; [| done].
        destruct (decide (j < ind)) as [Hji | Hji]; [by apply (Hfirst j) |].
        lia.
    + split; [| done]. intros _ (j & Hj & _).
      apply py_list_index_None in Ei. apply Ei.
      by eapply list_elem_of_lookup_2.
Qed.

Lemma length_omap_lookup_column (c : nat) (l : list (list F)) :
  Forall (λ r, c < length r) l →
  length (omap (λ r : list F, r !! c) l) = length l.
Proof.
  intros Hl. pose proof (mapM_lookup_column c l Hl) as E.
  apply length_mapM in E. done.
Qed.

Lemma length_post_burn_in_samples (chain : ndarray2 F) (c : nat) :
  well_shaped chain → c < ncols chain →
  length (post_burn_in_samples chain c)
  = length (rows chain) - length (rows chain) `div` 4.
Proof.
  intros Hws Hc. unfold post_burn_in_samples.
  rewrite length_omap_lookup_column.
  - by rewrite length_drop, length_burn_in.
  - apply Forall_drop. eapply Forall_impl; [exact Hws |].
    simpl. by intros r ->.
Qed.

(** In a matrix of [n] rows with at least five columns, [chain[burn:, -5]]
    has [n - floor(n/4)] entries. *)
Lemma post_burn_in_sample_count_2d (chain : ndarray2 F) :
  well_shaped chain → 5 ≤ ncols chain →
  ∃ col,
    np_rows_from_col chain (burn chain) (-5) = Some col
    ∧ length col = length (rows chain) - length (rows chain) `div` 4
    ∧ 3 * length (rows chain) ≤ 4 * length col
    ∧ (rows chain ≠ [] → col ≠ []).
Proof.
  intros Hws Hc. eexists. split.
  - apply (np_rows_from_col_spec chain (-5) (ncols chain - 5));
      [done | by apply (py_index_from_end (ncols chain) 5); lia | lia].
  - rewrite length_post_burn_in_samples by (done || lia).
    pose proof (Nat.div_mod_eq (length (rows chain)) 4) as Hdiv.
    pose proof (Nat.mod_upper_bound (length (rows chain)) 4) as Hmod.
    split_and!; [done | lia |].
    intros Hne Hnil. apply (f_equal length) in Hnil.
    rewrite length_post_burn_in_samples in Hnil by (done || lia).
    destruct (rows chain); [done |]. simpl in *. lia.
Qed.

(** On a matrix, column [-5] is the column of the last name when four
    columns follow the named ones. *)
Lemma upper_limit_columns_agree_2d (chain : ndarray2 F) (pre : list string)
    (ind : nat) :
  "log10_A_gw" ∉ pre →
  ncols chain = length (pre ++ ["log10_A_gw"]) + 4 →
  py_list_index "log10_A_gw" (pre ++ ["log10_A_gw"]) = Some ind →
  ind = length pre
  ∧ np_rows_from_col chain (burn chain) (-5)
    = np_rows_from_col chain (burn chain) (Z.of_nat ind).
Proof.
  intros Hpre Hcols Hind. rewrite length_app in Hcols. simpl in Hcols.
  assert (ind = length pre) as ->.
  { apply py_list_index_Some in Hind as [Hlook Hfirst].
    destruct (decide (ind < length pre)) as [Hlt | Hge].
    - rewrite lookup_app_l in Hlook by done.
      exfalso. apply Hpre. by eapply list_elem_of_lookup_2.
    - destruct (decide (length pre < ind)) as [Hgt |]; [| lia].
      exfalso. apply (Hfirst (length pre) Hgt).
      by rewrite lookup_app_r, Nat.sub_diag. }
  split; [done |]. unfold np_rows_from_col.
  assert (py_index (ncols chain) (-5) = Some (ncols chain - 5)) as ->
    by (apply (py_index_from_end (ncols chain) 5); lia).
  rewrite py_index_nonneg by lia.
  by replace (ncols chain - 5) with (length pre) by lia.
Qed.
End more_postprocessing_facts.

(** *** From the files to the columns *)

Section loadtxt_facts.
Context {F : Type} `{NpFloat F}.
Variable np_percentile : list F → F → F.

Lemma data_rows_nonempty {A} (lines : list (list A)) :
  Forall (λ r, r ≠ []) (data_rows lines).
Proof.
  apply Forall_forall. intros r Hr.
  by apply list_elem_of_filter in Hr as [Hr _].
Qed.

Lemma data_rows_id {A} (lines : list (list A)) :
  Forall (λ r, r ≠ []) lines → data_rows lines = lines.
Proof.
  unfold data_rows. induction 1 as [|r l Hr Hl IH]; [done |].
  by rewrite filter_cons_True, IH.
Qed.

(** [np.loadtxt] returns a matrix exactly for two or more rows of two or
    more columns. *)
Lemma np_loadtxt_Array2 {A} (lines : list (list A)) (chain : ndarray2 A) :
  np_loadtxt lines = Some (Array2 chain)
  ↔ ∃ n c, rectangular (data_rows lines) n c ∧ 2 ≤ n ∧ 2 ≤ c
           ∧ chain = {| rows := data_rows lines; ncols := c |}.
Proof.
  unfold np_loadtxt, rectangular.
  pose proof (data_rows_nonempty lines) as Hne. revert Hne.
  generalize (data_rows lines). intros [|first rest] Hne.
  - split; [done |]. intros (n & c & [Hn _] & Hn2 & _). simpl in Hn. lia.
  - apply Forall_cons in Hne as [Hfirst _]. case_decide as Hall.
    + destruct rest as [|second rest].
      * split.
        -- by destruct first as [|x [|y first]].
        -- intros (n & c & [Hn _] & Hn2 & _). simpl in Hn. lia.
      * destruct first as [|x [|y first]]; [done | |].
        -- split; [done |].
           intros (n & c & [_ Hc] & _ & Hc2 & _).
           apply Forall_cons in Hc as [Hc _]. simpl in Hc. lia.
        -- split.
           ++ intros [= <-]. eexists _, _. split_and!; [done | | | | done].
              ** by constructor.
              ** simpl. lia.
              ** simpl. lia.
           ++ intros (n & c & [_ Hc] & _ & _ & ->).
              apply Forall_cons in Hc as [<- _]. done.
    + split; [done |]. intros (n & c & [_ Hc] & _ & _ & _).
      exfalso. apply Hall. apply Forall_cons in Hc as [Hc Hrest].
      eapply Forall_impl; [exact Hrest |]. simpl. congruence.
Qed.

(** With too few rows for a matrix, [np.loadtxt] returns something that
    takes one index only. *)
Lemma np_loadtxt_few_rows {A} (lines : list (list A)) (n c : nat) :
  rectangular (data_rows lines) n c → n < 2 →
  ∀ chain, np_loadtxt lines ≠ Some (Array2 chain).
Proof.
  intros [Hn _] Hlt chain (n' & c' & [Hn' _] & Hn2 & _)%np_loadtxt_Array2.
  lia.
Qed.

Lemma concat_pars_file (pars : list string) : concat (pars_file pars) = pars.
Proof. induction pars as [|x pars IH]; [done |]. simpl. by rewrite IH. Qed.

(** [pars.txt] comes back as a zero-dimensional array when it holds one
    name, and as the array of its names otherwise. *)
Lemma np_loadtxt_pars_file (pars : list string) :
  np_loadtxt (pars_file pars)
  = Some match pars with
         | [x] => Array0 x
         | _ => Array1 pars
         end.
Proof.
  unfold np_loadtxt. rewrite data_rows_id.
  - destruct pars as [|x [|y pars]]; [done | done |].
    change (pars_file (x :: y :: pars))
      with ([x] :: [y] :: pars_file pars).
    cbv beta iota. rewrite decide_True.
    + do 2 f_equal. simpl. by rewrite concat_pars_file.
    + constructor; [done |]. apply Forall_fmap, Forall_forall. done.
  - apply Forall_fmap, Forall_forall. done.
Qed.

(** Reading a column of the file is reading it from the matrix, when the
    file has one. *)
Lemma load_index_spec (lines : list (list F)) (j : Z) :
  (cb ← load_chain lines; np_index2 cb.1 cb.2 j)
  = match np_loadtxt lines with
    | Some (Array2 chain) => np_rows_from_col chain (burn chain) j
    | _ => None
    end.
Proof.
  unfold load_chain.
  by destruct (np_loadtxt lines) as [[x|a|chain]|].
Qed.

Lemma load_index_Some (lines : list (list F)) (j : Z) :
  is_Some (cb ← load_chain lines; np_index2 cb.1 cb.2 j)
  ↔ ∃ n c, rectangular (data_rows lines) n c ∧ 2 ≤ n ∧ 2 ≤ c
           ∧ is_Some (py_index c j).
Proof.
  rewrite load_index_spec. split.
  - destruct (np_loadtxt lines) as [[x|a|chain]|] eqn:E;
      try by intros [? [=]].
    apply np_loadtxt_Array2 in E as (n & c & Hrect & Hn & Hc & ->).
    intros Hcol. exists n, c. split_and!; [done.. |].
    destruct (py_index c j) eqn:Hj; [done |].
    unfold np_rows_from_col in Hcol. simpl in Hcol. rewrite Hj in Hcol.
    by destruct Hcol.
  - intros (n & c & Hrect & Hn & Hc & Hj).
    assert (np_loadtxt lines
            = Some (Array2 {| rows := data_rows lines; ncols := c |})) as ->.
    { apply np_loadtxt_Array2. by exists n, c. }
    apply not_eq_None_Some. intros Hnone.
    apply np_rows_from_col_None in Hnone; [| by destruct Hrect].
    simpl in Hnone. rewrite Hnone in Hj. by destruct Hj.
Qed.

Lemma py_list_index_take (name : string) (pars : list string) (c : nat) :
  (∃ ind, py_list_index name pars = Some ind ∧ ind < c) ↔ name ∈ take c pars.
Proof.
  rewrite elem_of_take. split.
  - intros (ind & [Hind _]%py_list_index_Some & Hlt). by exists ind.
  - intros (j & Hj & Hlt).
    destruct (py_list_index name pars) as [ind|] eqn:Ei.
    + exists ind. split; [done |].
      apply py_list_index_Some in Ei as [_ Hfirst].
      destruct (decide (j < ind)) as [Hji |]; [| lia].
      by destruct (Hfirst j Hji).
    + apply py_list_index_None in Ei. destruct Ei.
      by eapply list_elem_of_lookup_2.
Qed.

Lemma is_Some_bind_Some {A B} (m : option A) (g : A → B) :
  is_Some (x ← m; Some (g x)) ↔ is_Some m.
Proof. destruct m; simpl; [by split | split; by intros [? [=]]]. Qed.

Lemma py_index_Some_from_end (c : nat) : is_Some (py_index c (-5)) ↔ 5 ≤ c.
Proof.
  rewrite <- not_eq_None_Some, py_index_None. lia.
Qed.

Lemma py_index_Some_nat (c ind : nat) :
  is_Some (py_index c (Z.of_nat ind)) ↔ ind < c.
Proof.
  rewrite <- not_eq_None_Some, py_index_None. lia.
Qed.

(** X17: From the files on, the verbose upper limit is computed exactly if
    [chain_1.txt] holds two or more rows of one length, five tokens or
    more; the column [chain[burn:, ind]] that goes to [model_utils.ul]
    exactly if it holds two or more rows of one length [c >= 2],
    [pars.txt] does not consist of a single name, and ['log10_A_gw'] is
    among its first [c] names.  In every other case a cell raises: a
    one-row or one-column chain comes back one-dimensional from
    [np.loadtxt] and takes no second index, a one-name [pars.txt]
    zero-dimensional and cannot be listed. *)
Theorem upper_limit_errors (lines : list (list F)) (pars : list string) :
  (is_Some (upper_cells np_percentile lines)
   ↔ ∃ n c, rectangular (data_rows lines) n c ∧ 2 ≤ n ∧ 5 ≤ c)
  ∧ (is_Some (model_utils_column lines (pars_file pars))
     ↔ ∃ n c, rectangular (data_rows lines) n c ∧ 2 ≤ n ∧ 2 ≤ c
              ∧ length pars ≠ 1 ∧ "log10_A_gw" ∈ take c pars).
Proof.
  split.
  - unfold upper_cells, chain_column.
    rewrite is_Some_bind_Some.
    rewrite load_index_Some. split.
    + intros (n & c & Hrect & Hn & _ & Hj%py_index_Some_from_end).
      by exists n, c.
    + intros (n & c & Hrect & Hn & Hc). exists n, c.
      split_and!; [done | done | lia | by apply py_index_Some_from_end].
  - unfold model_utils_column. rewrite np_loadtxt_pars_file.
    destruct (decide (length pars = 1)) as [Hone | Hone].
    + destruct pars as [|x [|y pars]]; try done.
      split; [| by intros (? & ? & _ & _ & _ & ? & _)].
      destruct (load_chain lines); by intros [? [=]].
    + assert (match pars with [x] => Array0 x | _ => Array1 pars end
              = Array1 pars) as ->
        by (by destruct pars as [|x [|y pars]]).
      destruct (py_list_index "log10_A_gw" pars) as [ind|] eqn:Ei.
      * transitivity (is_Some (cb ← load_chain lines;
                               np_index2 cb.1 cb.2 (Z.of_nat ind))).
        { destruct (load_chain lines); simpl; [by rewrite Ei | done]. }
        rewrite load_index_Some. split.
        -- intros (n & c & Hrect & Hn & Hc & Hj%py_index_Some_nat).
           exists n, c. split_and!; [done.. |].
           apply py_list_index_take. by exists ind.
        -- intros (n & c & Hrect & Hn & Hc & _
                   & (ind' & Hi & Hlt)%py_list_index_take).
           exists n, c. split_and!; [done.. |].
           apply py_index_Some_nat. congruence.
      * split.
        -- destruct (load_chain lines); simpl; rewrite ?Ei;
             by intros [? [=]].
        -- intros (n & c & _ & _ & _ & _
                   & (ind' & Hi & _)%py_list_index_take).
           congruence.
Qed.

(** The column [chain[burn:, -5]] of a file with a matrix in it. *)
Lemma chain_column_matrix (lines : list (list F)) (n c : nat) :
  rectangular (data_rows lines) n c → 2 ≤ n → 5 ≤ c →
  ∃ col,
    chain_column lines = Some col
    ∧ length col = n - n `div` 4
    ∧ 3 * n ≤ 4 * length col
    ∧ col ≠ [].
Proof.
  intros Hrect Hn Hc. unfold chain_column. rewrite load_index_spec.
  assert (np_loadtxt lines
          = Some (Array2 {| rows := data_rows lines; ncols := c |})) as ->.
  { apply np_loadtxt_Array2. exists n, c.
    split_and!; [done | done | lia | done]. }
  destruct Hrect as [Hlen Hall].
  destruct (post_burn_in_sample_count_2d
              {| rows := data_rows lines; ncols := c |} Hall Hc)
    as (col & Hcol & Hl & Hq & Hne).
  simpl in *. rewrite Hlen in *.
  exists col. split_and!; [done.. |].
  apply Hne. intros Hnil. rewrite Hnil in Hlen. simpl in Hlen. lia.
Qed.

(** X18: The samples that enter the percentile.  For a chain file of [n]
    rows of [c >= 5] tokens: with fewer than two rows the cell raises (the
    array is one-dimensional); with two or more, [chain[burn:, -5]] has
    [n - floor(n/4)] entries, which is at least three quarters of the rows,
    and is never empty. *)
Theorem post_burn_in_sample_count (lines : list (list F)) (n c : nat) :
  rectangular (data_rows lines) n c → 5 ≤ c →
  (n < 2 → chain_column lines = None)
  ∧ (2 ≤ n →
     ∃ col,
       chain_column lines = Some col
       ∧ length col = n - n `div` 4
       ∧ 3 * n ≤ 4 * length col
       ∧ col ≠ []).
Proof.
  intros Hrect Hc. split.
  - intros Hn. unfold chain_column. rewrite load_index_spec.
    destruct (np_loadtxt lines) as [[x|a|chain]|] eqn:E; try done.
    by destruct (np_loadtxt_few_rows lines n c Hrect Hn chain).
  - intros Hn. by apply (chain_column_matrix lines n c).
Qed.

(** X19: The two versions read the same column when [chain_1.txt] holds two
    or more rows, [pars.txt] names the columns in order with
    ['log10_A_gw'] last, after at least one other name, and the chain has
    the four auxiliary columns of the sampler after them.  When
    ['log10_A_gw'] is the only name, [pars] is zero-dimensional and the
    [model_utils] version raises. *)
Theorem upper_limit_columns_agree (lines : list (list F)) (pre : list string)
    (n c : nat) :
  rectangular (data_rows lines) n c → 2 ≤ n →
  "log10_A_gw" ∉ pre →
  c = length (pre ++ ["log10_A_gw"]) + 4 →
  (pre = [] →
   model_utils_column lines (pars_file (pre ++ ["log10_A_gw"])) = None)
  ∧ (pre ≠ [] →
     ∃ col,
       chain_column lines = Some col
       ∧ model_utils_column lines (pars_file (pre ++ ["log10_A_gw"]))
         = Some col).
Proof.
  intros Hrect Hn Hpre Hc. split.
  - intros ->. unfold model_utils_column. rewrite np_loadtxt_pars_file.
    simpl. by destruct (load_chain lines).
  - intros Hne.
    rewrite length_app in Hc. simpl in Hc.
    destruct (chain_column_matrix lines n c Hrect Hn ltac:(lia))
      as (col & Hcol & _).
    exists col. split; [done |].
    unfold model_utils_column. rewrite np_loadtxt_pars_file.
    assert (match pre ++ ["log10_A_gw"] with
            | [x] => Array0 x
            | _ => Array1 (pre ++ ["log10_A_gw"])
            end = Array1 (pre ++ ["log10_A_gw"])) as ->
      by (by destruct pre as [|x [|y pre]]).
    assert (py_list_index "log10_A_gw" (pre ++ ["log10_A_gw"])
            = Some (length pre)) as Hind.
    { apply py_list_index_Some. split.
      - by rewrite lookup_app_r, Nat.sub_diag.
      - intros j Hj Hlook. rewrite lookup_app_l in Hlook by done.
        apply Hpre. by eapply list_elem_of_lookup_2. }
    transitivity (cb ← load_chain lines;
                  np_index2 cb.1 cb.2 (Z.of_nat (length pre))).
    { destruct (load_chain lines); simpl; [| done]. by rewrite Hind. }
    rewrite <- Hcol. unfold chain_column. rewrite !load_index_spec.
    destruct (np_loadtxt lines) as [[x|a|chain]|] eqn:E; try done.
    apply np_loadtxt_Array2 in E as (n' & c' & [Hn' Hall'] & _ & _ & ->).
    assert (c' = c) as ->.
    { destruct Hrect as [Hlen Hall].
      destruct (data_rows lines) as [|r rest]; [simpl in Hlen; lia |].
      apply Forall_cons in Hall as [<- _].
      by apply Forall_cons in Hall' as [<- _]. }
    symmetry.
    apply (upper_limit_columns_agree_2d
             {| rows := data_rows lines; ncols := c |} pre (length pre));
      [done | simpl; rewrite length_app; simpl; lia | done].
Qed.
End loadtxt_facts.

(** ** The time span and the priors of the dip *)

Section span_facts.
Local Open Scope R_scope.

Lemma foldl_Rmin_spec (x : R) (a : list R) :
  foldl Rmin x a ∈ x :: a
  ∧ foldl Rmin x a <= x ∧ Forall (λ y, foldl Rmin x a <= y) a.
Proof.
  revert x. induction a as [|y a IH]; intros x; simpl.
  - split_and!; [by left | lra | constructor].
  - destruct (IH (Rmin x y)) as (Hin & Hle & Hall).
    assert (Rmin x y <= x ∧ Rmin x y <= y ∧ (Rmin x y = x ∨ Rmin x y = y))
      as (Hx & Hy & Hxy) by (unfold Rmin; destruct (Rle_dec x y); lra).
    split_and!.
    + apply elem_of_cons in Hin as [-> | Hin].
      * destruct Hxy as [-> | ->]; [by left | by right; left].
      * by right; right.
    + lra.
    + constructor; [lra | done].
Qed.

Lemma foldl_Rmax_spec (x : R) (a : list R) :
  foldl Rmax x a ∈ x :: a
  ∧ x <= foldl Rmax x a ∧ Forall (λ y, y <= foldl Rmax x a) a.
Proof.
  revert x. induction a as [|y a IH]; intros x; simpl.
  - split_and!; [by left | lra | constructor].
  - destruct (IH (Rmax x y)) as (Hin & Hle & Hall).
    assert (x <= Rmax x y ∧ y <= Rmax x y ∧ (Rmax x y = x ∨ Rmax x y = y))
      as (Hx & Hy & Hxy) by (unfold Rmax; destruct (Rle_dec x y); lra).
    split_and!.
    + apply elem_of_cons in Hin as [-> | Hin].
      * destruct Hxy as [-> | ->]; [by left | by right; left].
      * by right; right.
    + lra.
    + constructor; [lra | done].
Qed.

(** [np.min] returns an entry that is below every entry. *)
Lemma np_min_spec (a : list R) (m : R) :
  np_min a = Some m → m ∈ a ∧ ∀ x, x ∈ a → m <= x.
Proof.
  destruct a as [|x a]; [done |]. intros [= <-].
  destruct (foldl_Rmin_spec x a) as (Hin & Hle & Hall).
  split; [done |]. intros y [-> | Hy]%elem_of_cons; [done |].
  rewrite Forall_forall in Hall. by apply Hall.
Qed.

Lemma np_max_spec (a : list R) (m : R) :
  np_max a = Some m → m ∈ a ∧ ∀ x, x ∈ a → x <= m.
Proof.
  destruct a as [|x a]; [done |]. intros [= <-].
  destruct (foldl_Rmax_spec x a) as (Hin & Hle & Hall).
  split; [done |]. intros y [-> | Hy]%elem_of_cons; [done |].
  rewrite Forall_forall in Hall. by apply Hall.
Qed.

Lemma np_min_None (a : list R) : np_min a = None ↔ a = [].
Proof. by destruct a. Qed.

Lemma np_max_None (a : list R) : np_max a = None ↔ a = [].
Proof. by destruct a. Qed.

Lemma Forall2_elem_of_l {A B} (P : A → B → Prop) (l : list A) (k : list B) x :
  Forall2 P l k → x ∈ l → ∃ y, y ∈ k ∧ P x y.
Proof.
  induction 1 as [|x' y' l k Hxy _ IH]; intros Hx; [by inversion Hx |].
  apply elem_of_cons in Hx as [-> | Hx].
  - exists y'. split; [by left | done].
  - destruct (IH Hx) as (y & Hy & Hp). exists y. split; [by right | done].
Qed.

Lemma Forall2_elem_of_r {A B} (P : A → B → Prop) (l : list A) (k : list B) y :
  Forall2 P l k → y ∈ k → ∃ x, x ∈ l ∧ P x y.
Proof.
  induction 1 as [|x' y' l k Hxy _ IH]; intros Hy; [by inversion Hy |].
  apply elem_of_cons in Hy as [-> | Hy].
  - exists x'. split; [by left | done].
  - destruct (IH Hy) as (x & Hx & Hp). exists x. split; [by right | done].
Qed.
End span_facts.

Section span_theorems.
Local Open Scope R_scope.
Context {Psr : Type}.
Variable psr_toas : Psr → list R.

(** The least of the pulsars' first TOAs is a TOA and is below every TOA. *)
Lemma earliest_toa (psrs : list Psr) (lo : list R) (bottom : R) :
  tmin psr_toas psrs = Some lo → np_min lo = Some bottom →
  (∃ p, p ∈ psrs ∧ bottom ∈ psr_toas p)
  ∧ (∀ p t, p ∈ psrs → t ∈ psr_toas p → bottom <= t).
Proof.
  unfold tmin. intros Hlo%mapM_Some [Hin Hle]%np_min_spec. split.
  - destruct (Forall2_elem_of_r _ _ _ _ Hlo Hin) as (p & Hp & [Hm _]%np_min_spec).
    by exists p.
  - intros p t Hp Ht.
    destruct (Forall2_elem_of_l _ _ _ _ Hlo Hp) as (m & Hm & [_ Hmt]%np_min_spec).
    specialize (Hle m Hm). specialize (Hmt t Ht). lra.
Qed.

Lemma latest_toa (psrs : list Psr) (hi : list R) (top : R) :
  tmax psr_toas psrs = Some hi → np_max hi = Some top →
  (∃ p, p ∈ psrs ∧ top ∈ psr_toas p)
  ∧ (∀ p t, p ∈ psrs → t ∈ psr_toas p → t <= top).
Proof.
  unfold tmax. intros Hhi%mapM_Some [Hin Hle]%np_max_spec. split.
  - destruct (Forall2_elem_of_r _ _ _ _ Hhi Hin) as (p & Hp & [Hm _]%np_max_spec).
    by exists p.
  - intros p t Hp Ht.
    destruct (Forall2_elem_of_l _ _ _ _ Hhi Hp) as (m & Hm & [_ Hmt]%np_max_spec).
    specialize (Hle m Hm). specialize (Hmt t Ht). lra.
Qed.

(** X13: [Tspan] is the time from the earliest to the latest TOA of all loaded
    pulsars: both ends are TOAs, every TOA lies between them, and so
    [Tspan] is not negative and not less than the span of any one
    pulsar. *)
Theorem Tspan_is_total_span (psrs : list Psr) (T : R) :
  Tspan psr_toas psrs = Some T →
  ∃ first last,
    T = last - first
    ∧ (∃ p, p ∈ psrs ∧ first ∈ psr_toas p)
    ∧ (∃ p, p ∈ psrs ∧ last ∈ psr_toas p)
    ∧ (∀ p t, p ∈ psrs → t ∈ psr_toas p → first <= t <= last)
    ∧ 0 <= T
    ∧ (∀ p t1 t2, p ∈ psrs → t1 ∈ psr_toas p → t2 ∈ psr_toas p →
                  t2 - t1 <= T).
Proof.
  unfold Tspan. intros HT.
  destruct (tmin psr_toas psrs) as [lo|] eqn:Hlo; [| done].
  destruct (tmax psr_toas psrs) as [hi|] eqn:Hhi; [| done]. simpl in HT.
  destruct (np_max hi) as [top|] eqn:Htop; [| done].
  destruct (np_min lo) as [bottom|] eqn:Hbottom; [| done].
  injection HT as <-.
  destruct (earliest_toa psrs lo bottom Hlo Hbottom) as [(p1 & Hp1 & Hb) Hfirst].
  destruct (latest_toa psrs hi top Hhi Htop) as [Hlast_in Hlast].
  exists bottom, top. split_and!; [done | by exists p1 | done | | |].
  - intros p t Hp Ht. split; [by eapply Hfirst | by eapply Hlast].
  - specialize (Hlast p1 bottom Hp1 Hb). lra.
  - intros p t1 t2 Hp H1 H2.
    specialize (Hfirst p t1 Hp H1). specialize (Hlast p t2 Hp H2). lra.
Qed.

(** X14: [Tspan] raises (the [ValueError] of a minimum or maximum over nothing)
    exactly if no pulsar is loaded or some loaded pulsar has no TOA. *)
Theorem Tspan_raises (psrs : list Psr) :
  Tspan psr_toas psrs = None ↔ psrs = [] ∨ ∃ p, p ∈ psrs ∧ psr_toas p = [].
Proof.
  unfold Tspan. split.
  - destruct (tmin psr_toas psrs) as [lo|] eqn:Hlo.
    + destruct (tmax psr_toas psrs) as [hi|] eqn:Hhi; simpl.
      * destruct (np_max hi) as [top|] eqn:Htop; simpl.
        -- destruct (np_min lo) as [bottom|] eqn:Hb; [done |]. intros _.
           apply np_min_None in Hb as ->. left.
           apply mapM_Some in Hlo. by inversion Hlo.
        -- intros _. apply np_max_None in Htop as ->. left.
           apply mapM_Some in Hhi. by inversion Hhi.
      * intros _. right. apply mapM_None, Exists_exists in Hhi
          as (p & Hp & Hnone).
        exists p. split; [done | by apply np_max_None].
    + intros _. right. apply mapM_None, Exists_exists in Hlo
        as (p & Hp & Hnone).
      exists p. split; [done | by apply np_min_None].
  - intros [-> | (p & Hp & Hnil)]; [done |].
    assert (tmin psr_toas psrs = None) as ->; [| done].
    apply mapM_None, Exists_exists. exists p. split; [done |].
    by rewrite Hnil.
Qed.
End span_theorems.

Section prior_facts.
Local Open Scope R_scope.

Lemma ln_10_pos : 0 < ln 10.
Proof. rewrite <- ln_1. apply ln_increasing; lra. Qed.

Lemma Rpower_10_log10 (x : R) : 0 < x → Rpower 10 (np_log10 x) = x.
Proof.
  intros Hx. unfold Rpower, np_log10.
  replace (ln x / ln 10 * ln 10) with (ln x)
    by (field; pose proof ln_10_pos; lra).
  by apply exp_ln.
Qed.

End prior_facts.

(** ** The samples of one model *)

Section model_selection_facts.
Context {F : Type} `{NpFloat F}.
Variable f_ltb : F → F → bool.
Variable half : F.

Lemma np_mask_sublist (a : list F) (mask : list bool) :
  np_mask a mask `sublist_of` a.
Proof.
  unfold np_mask. revert mask.
  induction a as [|x a IH]; intros [|m mask]; simpl;
    try apply sublist_nil_l.
  rewrite filter_cons. case_decide; simpl.
  - by apply sublist_skip.
  - by apply sublist_cons.
Qed.

Lemma np_mask_exclusive (test1 test2 : F → bool) (a m : list F) :
  (∀ x, test1 x = true → test2 x = false) →
  length (np_mask a (test1 <$> m)) + length (np_mask a (test2 <$> m))
  ≤ length a.
Proof.
  intros Hex. unfold np_mask. revert m.
  induction a as [|x a IH]; intros [|y m]; simpl; try lia.
  specialize (IH m). rewrite !filter_cons.
  repeat case_decide; simpl in *; unfold fmap in *; try lia.
  exfalso. rewrite (Hex y) in * by done. done.
Qed.

End model_selection_facts.

(** ** The further properties on the sample inputs *)

Section more_samples.
Local Open Scope R_scope.

Local Ltac no_occurrence :=
  let H := fresh in
  simpl; intros H; repeat (destruct H as [H | H]; [discriminate H |]); exact H.

Lemma sample_names_ok : Forall (psr_name_of_length 10) sample_names.
Proof. repeat constructor; no_occurrence. Qed.

Lemma glob_order_irrelevant_witness :
  parfiles ["d/J0437-4715.par"; "d/J0030+0451.par"]
  = parfiles ["d/J0030+0451.par"; "d/J0437-4715.par"]
  ∧ timfiles ["d/J0437-4715.tim"; "d/J0030+0451.tim"]
    = timfiles ["d/J0030+0451.tim"; "d/J0437-4715.tim"]
  ∧ load_params sample_json_load ["noise/b.json"; "noise/a.json"]
    = load_params sample_json_load ["noise/a.json"; "noise/b.json"].
Proof.
  apply (glob_order_irrelevant sample_json_load); apply Permutation_swap.
Defined.

Lemma par_tim_pairs_match_witness :
  psr_of_path <$> parfiles (data_file "d/" "par" <$> sample_names)
  = psr_of_path <$> timfiles (data_file "d/" "IPTADR2.tim" <$> sample_names).
Proof.
  apply (par_tim_pairs_match "d/" "par" "IPTADR2.tim" 10 sample_names).
  - right. by exists "d".
  - no_occurrence.
  - no_occurrence.
  - exact sample_names_ok.
  - reflexivity.
  - reflexivity.
Defined.

Lemma load_psrs_at_most_two_witness :
  length ["J0030+0451"; "J1713+0747"]
  = (2 `min` (3 `min` 3))%nat.
Proof.
  apply (load_psrs_at_most_two sample_Pulsar
           ["d/J0030+0451.par"; "d/J1713+0747.par"; "d/J0437-4715.par"]
           ["d/J0030+0451.tim"; "d/J1713+0747.tim"; "d/J0437-4715.tim"]
           ["J0030+0451"; "J1713+0747"]
           ["WARNING: Could not find pulsar distance";
            "WARNING: Could not find pulsar distance"]).
  reflexivity.
Defined.

Lemma load_psrs_reads_two_pairs_witness :
  load_psrs sample_Pulsar
    ["d/J0030+0451.par"; "d/J1713+0747.par"; "d/J0437-4715.par"]
    ["d/J0030+0451.tim"; "d/J1713+0747.tim"; "d/J0437-4715.tim"]
  = load_psrs (λ p t, Ok (psr_of_path p, ["WARNING: Could not find pulsar distance"]))
    ["d/J0030+0451.par"; "d/J1713+0747.par"; "d/J0437-4715.par"]
    ["d/J0030+0451.tim"; "d/J1713+0747.tim"; "d/J0437-4715.tim"].
Proof.
  apply (load_psrs_reads_two_pairs sample_Pulsar).
  intros p t Hin.
  apply elem_of_cons in Hin as [[= -> ->] | Hin]; [reflexivity |].
  apply list_elem_of_singleton in Hin as [= -> ->]. reflexivity.
Defined.

Lemma params_values_from_files_witness :
  ∃ nf d, nf ∈ ["noise/b.json"; "noise/a.json"]
          ∧ sample_json_load nf = Ok d ∧ d !! "equad" = Some 3%Z.
Proof.
  apply (params_values_from_files sample_json_load
           ["noise/b.json"; "noise/a.json"]
           (<[ "efac" := 2%Z ]> {[ "equad" := 3%Z ]})).
  - vm_compute. reflexivity.
  - reflexivity.
Defined.

Lemma second_assembly_extends_first_witness :
  ("J1713+0747", ["NANOGrav"; "NANOGrav"; "PPTA"])
  = ("J1713+0747", ["NANOGrav"; "NANOGrav"; "PPTA"])
  ∧ (∀ t, t ∈ s_cell28 ++ [EcorrKernelNoise] →
          t ∈ s_cell47 ++ [EcorrKernelNoise; DmExponentialDip])
  ∧ (∀ t, t ∈ s_cell47 ++ [EcorrKernelNoise; DmExponentialDip] →
          t ∈ s_cell28 ++ [EcorrKernelNoise]
          ∨ t = DmAnnual ∨ t = DmExponentialDip).
Proof.
  apply (second_assembly_extends_first fst snd sample_psrs 0);
    vm_compute; reflexivity.
Defined.

Example data_rows_sample : length (data_rows sample_chain_file) = 4%nat.
Proof. reflexivity. Qed.

(** A chain of one row comes back one-dimensional, and the cell raises. *)
Example upper_cells_one_row :
  np_loadtxt [[-15; 0; 0; 0; 0]%R] = Some (Array1 [-15; 0; 0; 0; 0]%R)
  ∧ upper_cells sample_percentile [[-15; 0; 0; 0; 0]%R] = None.
Proof. split; reflexivity. Qed.

(** A [pars.txt] of one name comes back zero-dimensional, and cannot be
    listed. *)
Example upper_model_utils_cells_one_name :
  np_loadtxt (pars_file ["log10_A_gw"]) = Some (Array0 "log10_A_gw")
  ∧ upper_model_utils_cells sample_percentile sample_chain_file
      (pars_file ["log10_A_gw"]) = None.
Proof. split; reflexivity. Qed.

Example upper_cells_sample :
  chain_column sample_chain_file = Some [-14; -16; -13]%R
  ∧ model_utils_column sample_chain_file (pars_file ["gamma"; "log10_A_gw"])
    = Some [-14; -16; -13]%R.
Proof. split; reflexivity. Qed.

Lemma post_burn_in_sample_count_witness :
  ∃ col,
    chain_column sample_chain_file = Some col
    ∧ length col = (4 - 4 `div` 4)%nat
    ∧ (3 * 4 ≤ 4 * length col)%nat
    ∧ col ≠ [].
Proof.
  destruct (post_burn_in_sample_count sample_chain_file 4 6) as [_ Hcol].
  - split; [reflexivity | vm_compute; repeat constructor].
  - lia.
  - apply Hcol. lia.
Defined.

Lemma upper_limit_columns_agree_witness :
  ∃ col,
    chain_column sample_chain_file = Some col
    ∧ model_utils_column sample_chain_file
        (pars_file (["gamma"] ++ ["log10_A_gw"])) = Some col.
Proof.
  destruct (upper_limit_columns_agree sample_chain_file ["gamma"] 4 6)
    as [_ Hcol].
  - split; [reflexivity | vm_compute; repeat constructor].
  - lia.
  - intros Hin. apply list_elem_of_singleton in Hin. discriminate Hin.
  - reflexivity.
  - apply Hcol. discriminate.
Defined.

Lemma Tspan_is_total_span_witness :
  ∃ T, Tspan (λ p : list R, p) sample_toas = Some T ∧ 0 <= T.
Proof.
  eexists. split; [reflexivity |].
  destruct (Tspan_is_total_span (λ p : list R, p) sample_toas _ eq_refl)
    as (first & last & _ & _ & _ & _ & Hpos & _).
  exact Hpos.
Defined.


Lemma R_ltb_asym (x y : R) : R_ltb x y = true → R_ltb y x = false.
Proof.
  unfold R_ltb. destruct (Rlt_dec x y), (Rlt_dec y x); try done. lra.
Qed.

End more_samples.

(** ** Which pulsars are loaded *)

Section first_two_facts.

Lemma StronglySorted_filter_le (P : string → Prop) `{!∀ x, Decision (P x)}
    (l : list string) :
  StronglySorted String.le l → StronglySorted String.le (filter P l).
Proof.
  induction 1 as [|x l Hl IH Hx]; [constructor |].
  rewrite filter_cons. case_decide; [| done].
  constructor; [done |]. rewrite Forall_forall in Hx |- *.
  intros y [_ Hy]%list_elem_of_filter. by apply Hx.
Qed.

(** X8: [parfiles] and [timfiles] are in ascending lexicographic order, so the
    two files of each that the loading loop reads are the least ones that
    passed the filter: no file that is left out sorts before a file that
    is read. *)
Theorem first_two_files_are_least (glob_par glob_tim : list string) :
  StronglySorted String.le (parfiles glob_par)
  ∧ StronglySorted String.le (timfiles glob_tim)
  ∧ (∀ p q, p ∈ take 2 (parfiles glob_par) → q ∈ drop 2 (parfiles glob_par) →
            String.le p q)
  ∧ (∀ t u, t ∈ take 2 (timfiles glob_tim) → u ∈ drop 2 (timfiles glob_tim) →
            String.le t u).
Proof.
  assert (∀ g, StronglySorted String.le (filter_psrs (sorted g))) as Hs.
  { intros g. apply StronglySorted_filter_le.
    apply StronglySorted_merge_sort; apply _. }
  assert (∀ l p q, StronglySorted String.le l →
                   p ∈ take 2 l → q ∈ drop 2 l → String.le p q) as Hsplit.
  { intros l p q Hl Hp Hq. rewrite <- (take_drop 2 l) in Hl.
    by eapply StronglySorted_app_1_elem_of. }
  unfold parfiles, timfiles. split_and!; [done | done | |].
  - intros p q. by apply Hsplit.
  - intros t u. by apply Hsplit.
Qed.
End first_two_facts.
